(** * cesa::vector — a fixed-capacity vector over in-place storage

    Shallow embedding of [include/cesa/vector.hpp] and proofs of the
    properties its specification states.

    Modelling conventions.
    - [storage_] is the array of [max_elements] slots.  A slot is
      [Some x] when it holds an object of the element type with value [x],
      and [None] when it holds no object (fresh storage, or an object whose
      non-trivial destructor has run).
    - Pointers and iterators into the storage are offsets from [data()],
      counted in elements: [ptr_at i] is [i], [begin()] is [0] and [end()] is
      [size_].
    - [size_type] is [nat].  While [size_ <= max_elements] no computation
      of the code leaves the range of [std::size_t]; the places where a
      pointer range given by the caller would be reversed or leave the
      storage are reported as [Undefined].
    - A member function is a function from the state of the object to an
      [outcome]: it returns, throws, or has undefined behaviour.  Whatever
      was written to the object before a [throw] stays written.
    - The element type is abstract.  [moved_from x] is the value a moved-from
      object is left with when it held [x]; the two type traits the code
      branches on with [if constexpr] are boolean parameters, and so is
      [std::is_trivially_copyable_v], which decides whether the assignments
      the code makes into storage that holds no object are defined.
    - A parameter of type [const value_type &] is an [argument]: an object
      outside the vector, or the element in one of its slots, read when the
      code reads it.
    - [operator==], defined after the namespace is closed (lines 598-604),
      is not embedded: the class befriends [cesa::operator==], which has no
      body, so the body at global scope is no friend, reads the private
      [size_], and competes with the friend in every call [a == b]. *)

From stdpp Require Import base decidable option list strings gmap.

Set Default Proof Using "Type".

Module cesa.

(** ** Exceptions *)

(** The part of the [<stdexcept>] hierarchy around the one class the code
    throws. *)
Inductive exception_type : Set :=
| std_exception
| std_logic_error
| std_runtime_error
| std_out_of_range
| std_length_error.

Record exception : Set := { ex_type : exception_type; what : string }.

(** [std::out_of_range(msg)] *)
Definition out_of_range (msg : string) : exception :=
  {| ex_type := std_out_of_range; what := msg |}.

(** Direct base class. *)
Definition base_class (c : exception_type) : option exception_type :=
  match c with
  | std_exception => None
  | std_logic_error => Some std_exception
  | std_runtime_error => Some std_exception
  | std_out_of_range => Some std_logic_error
  | std_length_error => Some std_logic_error
  end.

Definition exception_type_eqb (a b : exception_type) : bool :=
  match a, b with
  | std_exception, std_exception
  | std_logic_error, std_logic_error
  | std_runtime_error, std_runtime_error
  | std_out_of_range, std_out_of_range
  | std_length_error, std_length_error => true
  | _, _ => false
  end.

(** [derives_from fuel c h]: [c] is [h] or has [h] among its bases. *)
Fixpoint derives_from (fuel : nat) (c h : exception_type) : bool :=
  exception_type_eqb c h ||
  match fuel with
  | 0 => false
  | S fuel' =>
      match base_class c with
      | Some b => derives_from fuel' b h
      | None => false
      end
  end.

(** A handler [catch (const H &)] is entered for a thrown exception exactly
    when the dynamic class of the exception is [H] or derives from it. *)
Definition catches (handler : exception_type) (e : exception) : bool :=
  derives_from 2 (ex_type e) handler.

(** The two error kinds of the specification, as the code raises them. *)
Definition IndexOutOfRange : exception := out_of_range "index out of range".
Definition CapacityExceeded : exception := out_of_range "vector capacity exceeded".

(** ** Outcomes of a call *)

Inductive outcome (S A : Type) : Type :=
| Returned (a : A) (s : S)
| Threw (e : exception) (s : S)
| Terminated
| Undefined.
Arguments Returned {S A} a s.
Arguments Threw {S A} e s.
Arguments Terminated {S A}.
Arguments Undefined {S A}.

Definition bind {S A B} (m : S → outcome S A) (k : A → S → outcome S B)
  : S → outcome S B :=
  λ s, match m s with
       | Returned a s' => k a s'
       | Threw e s' => Threw e s'
       | Terminated => Terminated
       | Undefined => Undefined
       end.

Definition ret {S A} (a : A) : S → outcome S A := λ s, Returned a s.

Declare Scope cxx_scope.
Delimit Scope cxx_scope with cxx.
Notation "'call' x <- m ;; k" := (bind m (λ x, k))
  (at level 10, x name, m at level 99, k at level 200) : cxx_scope.

(** [ensures P o]: the state a call leaves behind, whether it returned or
    threw, satisfies [P]. *)
Definition ensures {S A} (P : S → Prop) (o : outcome S A) : Prop :=
  match o with
  | Returned _ s | Threw _ s => P s
  | Terminated | Undefined => True
  end.

(** [noexcept]: an exception that would leave the function calls
    [std::terminate]. *)
Definition noexcept {S A} (o : outcome S A) : outcome S A :=
  match o with
  | Threw _ _ => Terminated
  | _ => o
  end.

(** A slot of the storage: an object of the element type, or none. *)
Abbreviation slot T := (option T) (only parsing).

Section element_type.

Context {T : Type}.

(** State of an object after it has been moved from. *)
Variable moved_from : T → T.

(** [std::is_trivially_copyable_v<T>]: construction from, and assignment
    of, an object of the element type copy its bytes and run no code of the
    type's own, as for [int]. *)
Variable trivially_copyable : bool.

(** [std::is_trivially_destructible_v<T>], [std::is_default_constructible_v<T>] *)
Variable trivially_destructible : bool.
Variable default_constructible : bool.


(** ** Slots of the storage *)

(** Read the object at offset [i]; [None] outside the array or where there
    is no object. *)
Definition load (st : list (slot T)) (i : nat) : option T := mjoin (st !! i).

(** Construct an object with value [x] in the slot at offset [i]
    (placement [new]), or give a new value to the object that is there;
    [None] outside the array. *)
Definition store (i : nat) (x : T) (st : list (slot T)) : option (list (slot T)) :=
  if decide (i < length st) then Some (<[i := Some x]> st) else None.

(** [p->~value_type()]: a trivial destructor leaves the slot as it is, a
    destructor of the type's own ends the object.  The code calls it on the
    counted slots only; where such a slot has lost its object already (see
    [erase_range]) the call is a second destruction, which the model does
    not tell apart: the slot stays empty. *)
Definition destroy (i : nat) (st : list (slot T)) : list (slot T) :=
  if trivially_destructible then st else <[i := None]> st.

(** An assignment of the value [x] to the slot at offset [i].  The
    assignment operator of a type that is not trivially copyable runs on
    its target as on an object, so the slot must hold one; for a trivially
    copyable type the assignment copies bytes into the storage.  [None]
    where the assignment is undefined, and outside the array. *)
Definition assign (i : nat) (x : T) (st : list (slot T)) : option (list (slot T)) :=
  match st !! i with
  | Some (Some _) => Some (<[i := Some x]> st)
  | Some None => if trivially_copyable then Some (<[i := Some x]> st) else None
  | None => None
  end.

(** Move-assignment between two slots: [d[0] = std::move(s[0])] for
    pointers [d] and [s]. *)
Definition move_assign (d s : nat) (st : list (slot T)) : option (list (slot T)) :=
  x ← load st s;
  st' ← assign d x st;
  store s (moved_from x) st'.

(** ** The algorithms of [<algorithm>] the code calls *)

(** [std::move_backward(first, last, d_last)]: while [first != last],
    decrement [last] and [d_last] and move-assign the object at [last] to
    the slot at [d_last]. *)
Fixpoint move_backward_loop (n last d_last : nat) (st : list (slot T))
  : option (list (slot T)) :=
  match n with
  | 0 => Some st
  | S n' =>
      match last, d_last with
      | S last', S d_last' =>
          st' ← move_assign d_last' last' st;
          move_backward_loop n' last' d_last' st'
      | _, _ => None
      end
  end.

Definition move_backward (first last d_last : nat) (st : list (slot T))
  : option (list (slot T)) :=
  if decide (first ≤ last) then move_backward_loop (last - first) last d_last st
  else None.

(** [std::move(first, last, d_first)]: while [first != last], move-assign
    the object at [first] to the slot at [d_first] and increment both. *)
Fixpoint move_loop (n first d_first : nat) (st : list (slot T))
  : option (list (slot T)) :=
  match n with
  | 0 => Some st
  | S n' =>
      st' ← move_assign d_first first st;
      move_loop n' (S first) (S d_first) st'
  end.

Definition move (first last d_first : nat) (st : list (slot T))
  : option (list (slot T)) :=
  if decide (first ≤ last) then move_loop (last - first) first d_first st
  else None.

(** ** The class *)

Record vector : Type := {
  storage_ : list (slot T);
  size_ : nat;
  max_size_ : nat
}.

Definition set_size (n : nat) (v : vector) : vector :=
  {| storage_ := storage_ v; size_ := n; max_size_ := max_size_ v |}.

Definition set_storage (st : list (slot T)) (v : vector) : vector :=
  {| storage_ := st; size_ := size_ v; max_size_ := max_size_ v |}.

(** The live elements, the first [size_] slots of the storage: what an
    iteration from [begin()] to [end()] visits. *)
Definition elements (v : vector) : list (slot T) := take (size_ v) (storage_ v).

(** The state of a vector of capacity [N] is well formed: the storage has
    [N] slots, the counters are in range and each of the first [size_]
    slots holds an object.  Nothing is said of the slots past [size_],
    which may hold objects the code has not destroyed. *)
Definition wf (N : nat) (v : vector) : Prop :=
  length (storage_ v) = N ∧ size_ v ≤ N ∧ max_size_ v = N ∧
  Forall is_Some (elements v).

(** The part of well-formedness that concerns the counters only. *)
Definition bounded (N : nat) (v : vector) : Prop :=
  length (storage_ v) = N ∧ size_ v ≤ N ∧ max_size_ v = N.

(** *** Element access and iterators *)

Definition ptr_at (index : nat) : nat := index.

Definition data (v : vector) : nat := 0.
Definition begin (v : vector) : nat := data v.
Definition cbegin (v : vector) : nat := data v.
Definition end_ (v : vector) : nat := data v + size_ v.
Definition cend (v : vector) : nat := data v + size_ v.

(** [std::distance(a, b)] converted to [size_type]; a negative distance has
    no counterpart. *)
Definition distance (a b : nat) : option nat :=
  if decide (a ≤ b) then Some (b - a) else None.

(** Reading through a reference or pointer into the storage. *)
Definition deref (v : vector) (p : nat) : option T := load (storage_ v) p.

(** [at(pos)]; the reference it returns is the offset of the slot. *)
Definition at_ (pos : nat) (v : vector) : outcome vector nat :=
  if decide (size_ v ≤ pos) then Threw (out_of_range "index out of range") v
  else Returned (ptr_at pos) v.

(** Subscript operator, [front()], [back()]: no check. *)
Definition subscript (i : nat) (v : vector) : nat := ptr_at i.
Definition front (v : vector) : nat := ptr_at 0.
Definition back (v : vector) : option nat :=
  if decide (0 < size_ v) then Some (ptr_at (size_ v - 1)) else None.

(** [std::reverse_iterator] over a pointer: it holds a pointer [base],
    denotes the slot just before it, and its increment decrements
    [base]. *)
Record reverse_iterator : Set := { base : nat }.

Definition rbegin (v : vector) : reverse_iterator := {| base := end_ v |}.
Definition crbegin (v : vector) : reverse_iterator := {| base := end_ v |}.
Definition rend (v : vector) : reverse_iterator := {| base := begin v |}.
Definition crend (v : vector) : reverse_iterator := {| base := begin v |}.

(** A caller's loop over a range of the storage,
    [for (auto it = first; it != last; ++it) use(it[0]);], as the list of
    the values it reads; [n] is the distance from [first] to [last]. *)
Fixpoint read_forward (n it : nat) (st : list (slot T)) : option (list T) :=
  match n with
  | 0 => Some []
  | S n' =>
      x ← load st it;
      xs ← read_forward n' (S it) st;
      Some (x :: xs)
  end.

(** [for (const auto &x : v) use(x);], the loop of [main.cpp]. *)
Definition range_for (v : vector) : option (list T) :=
  n ← distance (begin v) (end_ v);
  read_forward n (begin v) (storage_ v).

(** The same loop over reverse iterators; [n] is the distance from the
    base of [last] to the base of [r]. *)
Fixpoint read_reverse (n : nat) (r : reverse_iterator) (st : list (slot T))
  : option (list T) :=
  match n with
  | 0 => Some []
  | S n' =>
      match base r with
      | 0 => None
      | S b =>
          x ← load st b;
          xs ← read_reverse n' {| base := b |} st;
          Some (x :: xs)
      end
  end.

(** [for (auto r = v.rbegin(); r != v.rend(); ++r) use(r[0]);] *)
Definition reverse_for (v : vector) : option (list T) :=
  n ← distance (base (rend v)) (base (rbegin v));
  read_reverse n (rbegin v) (storage_ v).

(** *** Capacity *)

Definition size (v : vector) : nat := size_ v.
Definition max_size (v : vector) : nat := max_size_ v.

(** *** Modifiers that do not depend on the capacity *)

(** [pop_back()] *)
Definition pop_back (v : vector) : vector :=
  if decide (0 < size_ v) then
    let v1 := set_size (size_ v - 1) v in
    if negb trivially_destructible
    then set_storage (destroy (ptr_at (size_ v1)) (storage_ v1)) v1
    else v1
  else v.

(** [clear()]; the loop [while (size_ > 0) pop_back();] runs at most
    [size_] times. *)
Fixpoint clear_loop (fuel : nat) (v : vector) : vector :=
  match fuel with
  | 0 => v
  | S fuel' => if decide (0 < size_ v) then clear_loop fuel' (pop_back v) else v
  end.

Definition clear (v : vector) : vector :=
  if trivially_destructible then set_size 0 v
  else clear_loop (size_ v) v.

(** *** Members that depend on the capacity *)

Section capacity.

(** The template parameter [max_elements]. *)
Variable max_elements : nat.

Local Open Scope cxx_scope.

(** Default construction: zeroed storage, no object in it; the default
    member initialisers give [size_ = 0] and [max_size_ = max_elements]. *)
Definition default_vector : vector :=
  {| storage_ := replicate max_elements None;
     size_ := 0;
     max_size_ := max_elements |}.

(** What a parameter of type [const value_type &], or an argument
    forwarded to the constructor of the element type, is bound to: an
    object outside the vector, with value [x], or the element in the slot
    at offset [p] of this vector. *)
Inductive argument : Type :=
| by_value (x : T)
| element_at (p : nat).

(** The value the construction [new (ptr_at(index)) value_type(a)] takes
    from its argument.  It is read when the construction runs, after the
    elements have been shifted.  A reference to the slot under construction
    yields what the slot holds for a trivially copyable type and is
    undefined otherwise. *)
Definition read_argument (index : nat) (a : argument) (st : list (slot T))
  : option T :=
  match a with
  | by_value x => Some x
  | element_at p =>
      if decide (p = index)
      then (if trivially_copyable then load st p else None)
      else load st p
  end.

(** A reference that denotes an element of the vector, and not the one at
    [pos] unless the type is trivially copyable. *)
Definition valid_argument (pos : nat) (a : argument) (v : vector) : Prop :=
  match a with
  | by_value _ => True
  | element_at p => p < size_ v ∧ (p = pos → trivially_copyable = true)
  end.

(** [emplace(pos, args...)] with one argument, which the constructor of
    the element type copies. *)
Definition emplace_from (pos : nat) (a : argument) (v : vector)
  : outcome vector nat :=
  if decide (max_elements ≤ size_ v) then
    Threw (out_of_range "vector capacity exceeded") v
  else
    match (if decide (pos = cend v) then Some (size_ v)
           else distance (cbegin v) pos) with
    | None => Undefined
    | Some index =>
        let shifted :=
          if decide (index < size_ v)
          then move_backward (begin v + index) (end_ v) (end_ v + 1) (storage_ v)
          else Some (storage_ v) in
        match shifted ≫= (λ st, x ← read_argument index a st;
                                store (ptr_at index) x st) with
        | None => Undefined
        | Some st =>
            Returned (begin v + index)
              {| storage_ := st; size_ := size_ v + 1; max_size_ := max_size_ v |}
        end
    end.

(** [emplace(pos, args...)] with arguments that do not refer into this
    vector; [x] is the value [value_type(args...)] constructs. *)
Definition emplace (pos : nat) (x : T) : vector → outcome vector nat :=
  emplace_from pos (by_value x).

(** [insert(pos, value)], both overloads, for a value outside this
    vector. *)
Definition insert (pos : nat) (value : T) : vector → outcome vector nat :=
  emplace pos value.

(** [insert(const_iterator pos, const value_type &value)] *)
Definition insert_from (pos : nat) (value : argument)
  : vector → outcome vector nat :=
  emplace_from pos value.

(** The loop of [insert(pos, count, value)]:
    [while (count-- > 0) { it = insert(it, value); ++it; }]
    It passes the reference it has been given to every [insert]. *)
Fixpoint insert_count_loop (it count : nat) (value : argument)
  : vector → outcome vector nat :=
  match count with
  | 0 => ret it
  | S count' =>
      call it' <- insert_from it value ;;
      insert_count_loop (it' + 1) count' value
  end.

(** [insert(const_iterator pos, size_type count, const value_type &value)] *)
Definition insert_count (pos count : nat) (value : argument) (v : vector)
  : outcome vector nat :=
  match distance (cbegin v) pos with
  | None => Undefined
  | Some d => insert_count_loop (begin v + d) count value v
  end.

(** The loop of [insert(pos, first, last)]:
    [while (first != last) { it = insert(it, *first); ++first; ++it; }]
    over the values the range [first, last) yields. *)
Fixpoint insert_range_loop (it : nat) (range : list T)
  : vector → outcome vector nat :=
  match range with
  | [] => ret it
  | x :: range' =>
      call it' <- insert it x ;;
      insert_range_loop (it' + 1) range'
  end.

(** [insert(pos, first, last)]; the range is a sequence of values outside
    this vector. *)
Definition insert_range (pos : nat) (range : list T) (v : vector)
  : outcome vector nat :=
  match distance (cbegin v) pos with
  | None => Undefined
  | Some d => insert_range_loop (begin v + d) range v
  end.

(** [insert(pos, initializer_list)] *)
Definition insert_list (pos : nat) (initializer_list : list T)
  : vector → outcome vector nat :=
  insert_range pos initializer_list.

(** [push_back(value)], both overloads, and [emplace_back(args...)]: the
    reference they return is the offset of the new element. *)
Definition push_back (value : T) (v : vector) : outcome vector nat :=
  emplace (end_ v) value v.

Definition emplace_back (x : T) (v : vector) : outcome vector nat :=
  emplace (end_ v) x v.

(** A caller that pushes the values of a list one after the other:
    [for (const auto &x : values) v.push_back(x);] *)
Fixpoint push_back_all (values : list T) : vector → outcome vector unit :=
  match values with
  | [] => ret tt
  | x :: values' =>
      call _ <- push_back x ;;
      push_back_all values'
  end.

(** [erase(pos)] *)
Definition erase (pos : nat) (v : vector) : outcome vector nat :=
  match distance (cbegin v) pos with
  | None => Undefined
  | Some index =>
      if decide (index < size_ v) then
        match move (begin v + index + 1) (end_ v) (begin v + index) (storage_ v) with
        | None => Undefined
        | Some st => Returned (begin v + index) (pop_back (set_storage st v))
        end
      else Returned (begin v + index) v
  end.

(** The loop of [erase(first, last)] that runs when the element type is not
    default-constructible:
    [for (auto it = begin() + index; it != end(); ++it) it->~value_type();] *)
Fixpoint destroy_loop (n it : nat) (st : list (slot T)) : list (slot T) :=
  match n with
  | 0 => st
  | S n' => destroy_loop n' (S it) (destroy it st)
  end.

(** [erase(first, last)].  The final [size_ -= count] is reached on every
    path; with [count > size_], which needs [last] beyond [end()], it would
    wrap around, and the model stops there. *)
Definition erase_range (first last : nat) (v : vector) : outcome vector nat :=
  match distance (cbegin v) first, distance first last with
  | Some index, Some count =>
      let moved :=
        if decide (index < size_ v) then
          st ← move (begin v + index + count) (end_ v) (begin v + index) (storage_ v);
          Some (if negb default_constructible
                then destroy_loop (end_ v - (begin v + index)) (begin v + index) st
                else st)
        else Some (storage_ v) in
      match moved with
      | None => Undefined
      | Some st =>
          if decide (count ≤ size_ v) then
            Returned (begin v + index)
              {| storage_ := st; size_ := size_ v - count; max_size_ := max_size_ v |}
          else Undefined
      end
  | _, _ => Undefined
  end.

(** The fold [((emplace_back(std::forward<Args>(args))), ...)] of the
    variadic constructor, left to right over the arguments. *)
Fixpoint emplace_back_all (args : list T) : vector → outcome vector unit :=
  match args with
  | [] => ret tt
  | x :: args' =>
      call _ <- emplace_back x ;;
      emplace_back_all args'
  end.

(** [vector(Args &&... args)], each argument already converted to the
    element type.  The [static_assert] rejects, at compile time, a pack
    longer than [max_elements]: there is no such call, and the model has
    [None] for it. *)
Definition construct_from (args : list T) : option (outcome vector unit) :=
  if decide (length args ≤ max_elements)
  then Some (emplace_back_all args default_vector)
  else None.

(** *** Copy and move *)

(** [for (size_type i{}; i < other.size_; ++i) emplace_back(other[i]);]
    on the object under construction or assignment. *)
Fixpoint copy_loop (n i : nat) (other : vector) : vector → outcome vector unit :=
  match n with
  | 0 => ret tt
  | S n' =>
      λ this,
        match load (storage_ other) i with
        | None => Undefined
        | Some x =>
            (call _ <- emplace_back x ;; copy_loop n' (S i) other) this
        end
  end.

Definition copy_from (other : vector) : vector → outcome vector unit :=
  call _ <- copy_loop (size_ other) 0 other ;;
  λ this, Returned tt (set_size (size_ other) this).

(** [vector(const vector &other)] *)
Definition copy_construct (other : vector) : outcome vector unit :=
  copy_from other default_vector.

(** [for (size_type i{}; i < other.size_; ++i)
       emplace_back(std::move(other[i]));]
    on the pair (this object, [other]): the element of [other] is left
    moved-from once the new element has been constructed from it. *)
Fixpoint move_from_loop (n i : nat) (s : vector * vector)
  : outcome (vector * vector) unit :=
  match n with
  | 0 => Returned tt s
  | S n' =>
      let '(this, other) := s in
      match load (storage_ other) i with
      | None => Undefined
      | Some x =>
          match emplace_back x this with
          | Returned _ this' =>
              match store i (moved_from x) (storage_ other) with
              | None => Undefined
              | Some st => move_from_loop n' (S i) (this', set_storage st other)
              end
          | Threw e this' => Threw e (this', other)
          | Terminated => Terminated
          | Undefined => Undefined
          end
      end
  end.

Definition move_from (s : vector * vector) : outcome (vector * vector) unit :=
  match move_from_loop (size_ s.2) 0 s with
  | Returned _ (this, other) =>
      Returned tt (set_size (size_ other) this, clear other)
  | o => o
  end.

(** [vector(vector &&other) noexcept]: state is (new object, [other]). *)
Definition move_construct (other : vector) : outcome (vector * vector) unit :=
  noexcept (move_from (default_vector, other)).

(** The body of [operator=(const vector &other)] under [this != &other],
    on the object assigned to. *)
Definition copy_assign_body (other : vector) (this : vector)
  : outcome vector unit :=
  copy_from other (clear this).

(** The body of [operator=(vector &&other) noexcept] under
    [this != &other], on the pair (this object, [other]). *)
Definition move_assign_body (s : vector * vector)
  : outcome (vector * vector) unit :=
  noexcept (move_from (clear s.1, s.2)).

(** The assignment operators compare the addresses of the two objects, so
    they are functions on a store of vectors by address. *)
Definition copy_assignment (this other : nat) (h : gmap nat vector)
  : outcome (gmap nat vector) unit :=
  if decide (this ≠ other) then
    match h !! this, h !! other with
    | Some d, Some s =>
        match copy_assign_body s d with
        | Returned _ d' => Returned tt (<[this := d']> h)
        | Threw e d' => Threw e (<[this := d']> h)
        | Terminated => Terminated
        | Undefined => Undefined
        end
    | _, _ => Undefined
    end
  else Returned tt h.

Definition move_assignment (this other : nat) (h : gmap nat vector)
  : outcome (gmap nat vector) unit :=
  if decide (this ≠ other) then
    match h !! this, h !! other with
    | Some d, Some s =>
        match move_assign_body (d, s) with
        | Returned _ (d', s') => Returned tt (<[other := s']> (<[this := d']> h))
        | Threw e (d', s') => Threw e (<[other := s']> (<[this := d']> h))
        | Terminated => Terminated
        | Undefined => Undefined
        end
    | _, _ => Undefined
    end
  else Returned tt h.

(** *** Sequences of public operations

    The values an operation is given are objects outside the vector. *)

Inductive operation : Type :=
| op_at (pos : nat)
| op_clear
| op_insert (pos : nat) (value : T)
| op_insert_count (pos count : nat) (value : T)
| op_insert_range (pos : nat) (range : list T)
| op_insert_list (pos : nat) (initializer_list : list T)
| op_emplace (pos : nat) (x : T)
| op_erase (pos : nat)
| op_erase_range (first last : nat)
| op_push_back (value : T)
| op_emplace_back (x : T)
| op_pop_back.

Definition discard {A} (m : vector → outcome vector A) : vector → outcome vector unit :=
  call _ <- m ;; ret tt.

Definition run (o : operation) : vector → outcome vector unit :=
  match o with
  | op_at pos => discard (at_ pos)
  | op_clear => λ v, Returned tt (clear v)
  | op_insert pos value => discard (insert pos value)
  | op_insert_count pos count value =>
      discard (insert_count pos count (by_value value))
  | op_insert_range pos range => discard (insert_range pos range)
  | op_insert_list pos il => discard (insert_list pos il)
  | op_emplace pos x => discard (emplace pos x)
  | op_erase pos => discard (erase pos)
  | op_erase_range first last => discard (erase_range first last)
  | op_push_back value => discard (push_back value)
  | op_emplace_back x => discard (emplace_back x)
  | op_pop_back => λ v, Returned tt (pop_back v)
  end.

(** The operations that insert. *)
Definition is_insertion (o : operation) : bool :=
  match o with
  | op_insert _ _ | op_insert_count _ _ _ | op_insert_range _ _
  | op_insert_list _ _ | op_emplace _ _ | op_push_back _
  | op_emplace_back _ => true
  | _ => false
  end.

(** The documented preconditions: a position lies in [begin(), end()], the
    position given to [erase] denotes an element, and the two positions
    given to [erase] form a range inside the vector. *)
Definition precondition (o : operation) (v : vector) : Prop :=
  match o with
  | op_insert pos _ | op_insert_count pos _ _ | op_insert_range pos _
  | op_insert_list pos _ | op_emplace pos _ => begin v ≤ pos ≤ end_ v
  | op_erase pos => begin v ≤ pos < end_ v
  | op_erase_range first last => begin v ≤ first ≤ last ∧ last ≤ end_ v
  | _ => True
  end.

(** States a vector of this capacity can be in: default construction, copy
    and move construction from a reachable vector, and then any operation
    or assignment, whether it returns or throws. *)
Inductive reachable : vector → Prop :=
| reach_default : reachable default_vector
| reach_returned o v v' :
    reachable v → precondition o v → run o v = Returned tt v' → reachable v'
| reach_threw o v e v' :
    reachable v → precondition o v → run o v = Threw e v' → reachable v'
| reach_copy_construct other v' :
    reachable other → copy_construct other = Returned tt v' → reachable v'
| reach_copy_assign other v v' :
    reachable other → reachable v →
    copy_assign_body other v = Returned tt v' → reachable v'
| reach_move_construct other v' other' :
    reachable other → move_construct other = Returned tt (v', other') →
    reachable v'
| reach_move_constructed_from other v' other' :
    reachable other → move_construct other = Returned tt (v', other') →
    reachable other'
| reach_move_assign other v v' other' :
    reachable other → reachable v →
    move_assign_body (v, other) = Returned tt (v', other') → reachable v'
| reach_move_assigned_from other v v' other' :
    reachable other → reachable v →
    move_assign_body (v, other) = Returned tt (v', other') → reachable other'.

End capacity.

End element_type.

(** ** Vectors of the concrete scenarios

    Element type [int], which is trivially copyable, trivially
    destructible and default-constructible, and for which a moved-from
    object keeps its value; and a class type [boxed] that wraps an [int],
    has a destructor of its own, so that it is not trivially copyable, and
    no default constructor. *)

Definition moved_from_int (x : nat) : nat := x.

(** [cesa::vector<int, 10>] after [push_back(5)], as in [main.cpp]. *)
Definition vec_main : @vector nat :=
  {| storage_ := Some 5 :: replicate 9 None; size_ := 1; max_size_ := 10 |}.

(** [cesa::vector<int, 3>] holding 1, 2, 3. *)
Definition vec_full : @vector nat :=
  {| storage_ := [Some 1; Some 2; Some 3]; size_ := 3; max_size_ := 3 |}.

(** A vector of capacity 5 holding 1, 2, 3, 4, 5. *)
Definition vec_12345 : @vector nat :=
  {| storage_ := [Some 1; Some 2; Some 3; Some 4; Some 5];
     size_ := 5; max_size_ := 5 |}.

(** [cesa::vector<int, 5>] holding 1, 2. *)
Definition vec_12 : @vector nat :=
  {| storage_ := [Some 1; Some 2; None; None; None];
     size_ := 2; max_size_ := 5 |}.

(** [cesa::vector<int, 2>] holding 1, 2. *)
Definition vec_12_small : @vector nat :=
  {| storage_ := [Some 1; Some 2]; size_ := 2; max_size_ := 2 |}.

(** * Properties *)

(** ** Slots and the algorithms *)

Section storage_facts.

Context {T : Type}.
Variable moved_from : T → T.
Variable trivially_copyable : bool.
Implicit Types (st : list (slot T)) (x : T).

Lemma load_Some st i x : load st i = Some x ↔ st !! i = Some (Some x).
Proof.
  unfold load. destruct (st !! i) as [[y|]|]; simpl; split; congruence.
Qed.

Lemma load_lt st i : is_Some (load st i) → i < length st.
Proof.
  intros [x Hx%load_Some]. by eapply lookup_lt_Some.
Qed.

Lemma store_Some st i x :
  i < length st → store i x st = Some (<[i := Some x]> st).
Proof. intros Hi. unfold store. by rewrite decide_True. Qed.

(** An assignment is defined on a slot of the array when the type is
    trivially copyable or the slot holds an object. *)
Lemma assign_Some st i x :
  i < length st → trivially_copyable = true ∨ is_Some (load st i) →
  assign trivially_copyable i x st = Some (<[i := Some x]> st).
Proof.
  intros Hi Hok. unfold assign.
  destruct (lookup_lt_is_Some_2 st i Hi) as [[y|] Hy]; rewrite Hy; [done|].
  destruct Hok as [->|[z Hz]]; [done|].
  apply load_Some in Hz. congruence.
Qed.

(** It is undefined on a slot without an object otherwise. *)
Lemma assign_None st i x :
  trivially_copyable = false → load st i = None →
  assign trivially_copyable i x st = None.
Proof.
  intros Htc Hno. unfold assign, load in *. rewrite Htc.
  by destruct (st !! i) as [[y|]|].
Qed.

Lemma move_assign_Some st d s x :
  load st s = Some x → d < length st →
  trivially_copyable = true ∨ is_Some (load st d) →
  move_assign moved_from trivially_copyable d s st
  = Some (<[s := Some (moved_from x)]> (<[d := Some x]> st)).
Proof.
  intros Hx Hd Hok. unfold move_assign. rewrite Hx. simpl.
  rewrite assign_Some by done. simpl.
  apply store_Some. rewrite length_insert.
  apply load_lt. by exists x.
Qed.

(** [move_backward] by one slot: every object of the range ends up one slot
    to the right, and nothing outside [first .. last] changes. *)
Lemma move_backward_loop_shift n : ∀ last st,
  n ≤ last → last < length st →
  (∀ j, last - n ≤ j < last → is_Some (load st j)) →
  n = 0 ∨ trivially_copyable = true ∨ is_Some (load st last) →
  ∃ st', move_backward_loop moved_from trivially_copyable n last (S last) st = Some st'
    ∧ length st' = length st
    ∧ (∀ j, j < last - n → st' !! j = st !! j)
    ∧ (∀ j, last - n < j ≤ last → st' !! j = st !! (j - 1))
    ∧ (∀ j, last < j → st' !! j = st !! j)
    ∧ (0 < n → is_Some (load st' (last - n))).
Proof.
  induction n as [|n IH]; intros last st Hn Hlast Hlive Htarget.
  - exists st. split_and!; auto; intros; lia.
  - destruct last as [|l]; [lia|].
    destruct (Hlive l) as [x Hx]; [lia|].
    assert (Hok : trivially_copyable = true ∨ is_Some (load st (S l)))
      by (destruct Htarget as [?|[?|?]]; [lia|by left|by right]).
    simpl. rewrite (move_assign_Some _ _ _ x) by done. simpl.
    set (st1 := <[l := Some (moved_from x)]> (<[S l := Some x]> st)).
    assert (Hlen1 : length st1 = length st)
      by (unfold st1; by rewrite !length_insert).
    assert (Hold : ∀ j, j < l → st1 !! j = st !! j).
    { intros j Hj. unfold st1.
      rewrite !list_lookup_insert_ne by lia. done. }
    assert (Hmoved : is_Some (load st1 l)).
    { unfold load, st1.
      rewrite list_lookup_insert_eq by (rewrite length_insert; lia).
      by eexists. }
    destruct (IH l st1) as (st' & Hrun & Hlen & Hlow & Hmid & Hhigh & Hfirst).
    + lia.
    + lia.
    + intros j Hj. unfold load. rewrite Hold by lia.
      apply (Hlive j). lia.
    + by right; right.
    + exists st'. split; [done|]. split; [congruence|].
      split_and!.
      * intros j Hj. rewrite Hlow by lia. apply Hold. lia.
      * intros j Hj. destruct (decide (j = S l)) as [->|Hne].
        -- rewrite Hhigh by lia. unfold st1.
           rewrite list_lookup_insert_ne by lia.
           rewrite list_lookup_insert_eq by lia.
           simpl. rewrite Nat.sub_0_r. symmetry. by apply load_Some.
        -- rewrite Hmid by lia. apply Hold. lia.
      * intros j Hj. rewrite Hhigh by lia. unfold st1.
        rewrite !list_lookup_insert_ne by lia. done.
      * intros _. replace (S l - S n) with (l - n) by lia.
        destruct (decide (0 < n)) as [Hn0|Hn0]; [by apply Hfirst|].
        assert (n = 0) as -> by lia. injection Hrun as <-.
        by rewrite Nat.sub_0_r.
Qed.

(** [move] to the left: the objects of the source range arrive in the
    destination range in the same order, and nothing before the destination
    changes. *)
Lemma move_loop_shift n : ∀ first d_first st,
  d_first < first → first + n ≤ length st →
  (∀ j, j < n → is_Some (load st (first + j))) →
  trivially_copyable = true ∨ (∀ j, j < n → is_Some (load st (d_first + j))) →
  ∃ st', move_loop moved_from trivially_copyable n first d_first st = Some st'
    ∧ length st' = length st
    ∧ (∀ j, j < d_first → st' !! j = st !! j)
    ∧ (∀ j, j < n → st' !! (d_first + j) = st !! (first + j)).
Proof.
  induction n as [|n IH]; intros first d st Hd Hlen Hlive Htarget.
  - exists st. repeat split; auto. intros j ?; lia.
  - destruct (Hlive 0) as [x Hx]; [lia|]. rewrite Nat.add_0_r in Hx.
    assert (Hok : trivially_copyable = true ∨ is_Some (load st d)).
    { destruct Htarget as [?|Htarget]; [by left|right].
      rewrite <- (Nat.add_0_r d). apply Htarget. lia. }
    simpl. rewrite (move_assign_Some _ _ _ x) by (done || lia). simpl.
    set (st1 := <[first := Some (moved_from x)]> (<[d := Some x]> st)).
    assert (Hlen1 : length st1 = length st)
      by (unfold st1; by rewrite !length_insert).
    assert (Hold : ∀ j, j ≠ first → j ≠ d → st1 !! j = st !! j).
    { intros j ? ?. unfold st1.
      rewrite !list_lookup_insert_ne by lia. done. }
    destruct (IH (S first) (S d) st1) as (st' & Hrun & Hlen' & Hlow & Hmid).
    + lia.
    + lia.
    + intros j Hj. unfold load. rewrite Hold by lia.
      replace (S first + j) with (first + S j) by lia.
      apply (Hlive (S j)). lia.
    + destruct Htarget as [?|Htarget]; [by left|right].
      intros j Hj. unfold load.
      destruct (decide (S d + j = first)) as [Heq|Hne].
      * rewrite Heq. unfold st1.
        rewrite list_lookup_insert_eq by (rewrite length_insert; lia).
        by eexists.
      * rewrite Hold by lia.
        replace (S d + j) with (d + S j) by lia. apply Htarget. lia.
    + exists st'. split; [done|]. split; [congruence|]. split.
      * intros j Hj. rewrite Hlow by lia. apply Hold; lia.
      * intros [|j] Hj.
        -- rewrite Nat.add_0_r. rewrite Hlow by lia. unfold st1.
           rewrite list_lookup_insert_ne by lia.
           rewrite list_lookup_insert_eq by lia.
           rewrite Nat.add_0_r. symmetry. by apply load_Some.
        -- replace (d + S j) with (S d + j) by lia.
           rewrite Hmid by lia. rewrite Hold by lia.
           f_equal. lia.
Qed.


(** The algorithms never change the length of the storage. *)
Lemma store_length st i x st' : store i x st = Some st' → length st' = length st.
Proof.
  unfold store. case_decide; [|done]. intros [= <-]. apply length_insert.
Qed.

Lemma assign_length st i x st' :
  assign trivially_copyable i x st = Some st' → length st' = length st.
Proof.
  unfold assign. destruct (st !! i) as [[y|]|]; [| |done].
  - intros [= <-]. apply length_insert.
  - destruct trivially_copyable; [|done]. intros [= <-]. apply length_insert.
Qed.

Lemma move_assign_length st d s st' :
  move_assign moved_from trivially_copyable d s st = Some st' → length st' = length st.
Proof.
  unfold move_assign. destruct (load st s) as [x|]; [simpl|done].
  destruct (assign trivially_copyable d x st) as [st1|] eqn:Hst1; [simpl|done].
  intros Hst'. apply assign_length in Hst1. apply store_length in Hst'.
  congruence.
Qed.

Lemma move_backward_loop_length n : ∀ last d_last st st',
  move_backward_loop moved_from trivially_copyable n last d_last st = Some st' →
  length st' = length st.
Proof.
  induction n as [|n IH]; intros last d_last st st'; simpl.
  - by intros [= <-].
  - destruct last as [|last]; [done|]. destruct d_last as [|d_last]; [done|].
    destruct (move_assign moved_from trivially_copyable d_last last st) as [st1|] eqn:Hst1;
      [simpl|done].
    intros Hst'%IH. apply move_assign_length in Hst1. congruence.
Qed.

Lemma move_backward_length first last d_last st st' :
  move_backward moved_from trivially_copyable first last d_last st = Some st' →
  length st' = length st.
Proof.
  unfold move_backward. case_decide; [|done]. apply move_backward_loop_length.
Qed.

Lemma move_loop_length n : ∀ first d_first st st',
  move_loop moved_from trivially_copyable n first d_first st = Some st' →
  length st' = length st.
Proof.
  induction n as [|n IH]; intros first d_first st st'; simpl.
  - by intros [= <-].
  - destruct (move_assign moved_from trivially_copyable d_first first st) as [st1|] eqn:Hst1;
      [simpl|done].
    intros Hst'%IH. apply move_assign_length in Hst1. congruence.
Qed.

Lemma move_length first last d_first st st' :
  move moved_from trivially_copyable first last d_first st = Some st' →
  length st' = length st.
Proof.
  unfold move. case_decide; [|done]. apply move_loop_length.
Qed.

End storage_facts.

(** ** Outcomes *)

Lemma ensures_bind {S A B} (P : S → Prop) (m : S → outcome S A)
    (k : A → S → outcome S B) (s : S) :
  ensures P (m s) → (∀ a s', P s' → ensures P (k a s')) →
  ensures P (bind m k s).
Proof.
  unfold bind. destruct (m s); simpl; auto.
Qed.

Lemma ensures_noexcept {S A} (P : S → Prop) (o : outcome S A) :
  ensures P o → ensures P (noexcept o).
Proof. destruct o; simpl; auto. Qed.

Lemma ensures_returned {S A} (P : S → Prop) (o : outcome S A) a s :
  ensures P o → o = Returned a s → P s.
Proof. by intros H ->. Qed.

Lemma ensures_threw {S A} (P : S → Prop) (o : outcome S A) e s :
  ensures P o → o = Threw e s → P s.
Proof. by intros H ->. Qed.

(** ** Well-formed vectors and [emplace] *)

Section vector_facts.

Context {T : Type}.
Variable moved_from : T → T.
Variable trivially_copyable : bool.
Variable trivially_destructible default_constructible : bool.
Variable max_elements : nat.
Implicit Types (v : @vector T) (x : T).

Lemma wf_live N v i : wf N v → i < size_ v → is_Some (load (storage_ v) i).
Proof.
  intros (Hlen & Hsize & _ & Hall) Hi.
  destruct (lookup_lt_is_Some_2 (elements v) i) as [s Hs].
  { unfold elements. rewrite length_take. lia. }
  pose proof (Forall_lookup_1 _ _ _ _ Hall Hs) as [y ->].
  exists y. apply load_Some.
  unfold elements in Hs. by rewrite lookup_take_lt in Hs.
Qed.

Lemma length_elements N v : wf N v → length (elements v) = size_ v.
Proof.
  intros (Hlen & Hsize & _). unfold elements. rewrite length_take. lia.
Qed.

Lemma wf_default : wf max_elements (@default_vector T max_elements).
Proof.
  unfold wf, default_vector, elements; simpl.
  rewrite length_replicate. repeat split; auto. lia.
Qed.

(** The shift [emplace] makes before it constructs: defined when nothing
    is moved, when the type is trivially copyable, or when the slot at
    [end()] holds an object; every element from [pos] on is then one slot
    further right. *)
Lemma emplace_shift pos v :
  wf max_elements v → pos ≤ size_ v → size_ v < max_elements →
  pos = size_ v ∨ trivially_copyable = true
  ∨ is_Some (load (storage_ v) (size_ v)) →
  ∃ st',
    (if decide (pos < size_ v)
     then move_backward moved_from trivially_copyable (begin v + pos) (end_ v)
            (end_ v + 1) (storage_ v)
     else Some (storage_ v)) = Some st'
    ∧ length st' = max_elements
    ∧ (∀ j, j < pos → st' !! j = storage_ v !! j)
    ∧ (∀ j, pos < j ≤ size_ v → st' !! j = storage_ v !! (j - 1))
    ∧ (pos < size_ v → is_Some (load st' pos)).
Proof.
  intros Hwf Hpos Hroom Hok.
  pose proof Hwf as (Hlen & Hsize & Hmax & Hall).
  destruct (decide (pos < size_ v)) as [Hlt|Hge].
  - unfold move_backward, begin, end_, data. simpl.
    rewrite decide_True by lia. rewrite Nat.add_1_r.
    destruct (move_backward_loop_shift moved_from trivially_copyable
                (size_ v - pos) (size_ v) (storage_ v))
      as (st' & Hrun & Hlen' & Hlow & Hmid & _ & Hfirst).
    + lia.
    + lia.
    + intros j Hj. apply (wf_live max_elements); [done|lia].
    + destruct Hok as [?|[?|?]]; [lia|by right; left|by right; right].
    + exists st'. split; [done|]. split; [lia|]. split_and!.
      * intros j Hj. apply Hlow. lia.
      * intros j Hj. apply Hmid. lia.
      * intros _. replace pos with (size_ v - (size_ v - pos)) by lia.
        apply Hfirst. lia.
  - exists (storage_ v). split_and!; auto; intros; lia.
Qed.

(** What [emplace] does below the capacity, at a position of the vector,
    with an argument it can read, where its shift is defined. *)
Lemma emplace_from_spec pos a v :
  wf max_elements v → pos ≤ size_ v → size_ v < max_elements →
  pos = size_ v ∨ trivially_copyable = true
  ∨ is_Some (load (storage_ v) (size_ v)) →
  valid_argument trivially_copyable pos a v →
  ∃ x v',
    emplace_from moved_from trivially_copyable max_elements pos a v
    = Returned pos v'
    ∧ wf max_elements v'
    ∧ size_ v' = size_ v + 1
    ∧ elements v' = take pos (elements v) ++ Some x :: drop pos (elements v)
    ∧ (∀ y, a = by_value y → x = y)
    ∧ (∀ p, a = element_at p →
         (p < pos → load (storage_ v) p = Some x)
         ∧ (pos < p → load (storage_ v) (p - 1) = Some x)).
Proof.
  intros Hwf Hpos Hroom Hok Harg.
  pose proof Hwf as (Hlen & Hsize & Hmax & Hall).
  set (index_of := if decide (pos = cend v) then Some (size_ v)
                   else distance (cbegin v) pos).
  assert (Hindex : index_of = Some pos).
  { unfold index_of, cend, cbegin, distance, data.
    repeat case_decide; first [f_equal; lia | lia]. }
  destruct (emplace_shift pos v Hwf Hpos Hroom Hok)
    as (st' & Hrun & Hlen' & Hlow & Hmid & Hfirst).
  assert (Hread : ∃ x, read_argument trivially_copyable pos a st' = Some x
                       ∧ (∀ y, a = by_value y → x = y)
                       ∧ (∀ p, a = element_at p →
                            (p < pos → load (storage_ v) p = Some x)
                            ∧ (pos < p → load (storage_ v) (p - 1) = Some x))).
  { destruct a as [y|p]; cbn [read_argument].
    - exists y. split_and!; [done|by intros ? [= <-]|intros ? [=]].
    - destruct Harg as [Hp Hself].
      assert (Hlive : is_Some (load st' p)).
      { destruct (decide (p < pos)) as [Hlt|Hge].
        - unfold load. rewrite Hlow by done.
          apply (wf_live max_elements); [done|lia].
        - destruct (decide (p = pos)) as [->|Hne]; [by apply Hfirst|].
          unfold load. rewrite Hmid by lia.
          apply (wf_live max_elements); [done|lia]. }
      destruct Hlive as [x Hx]. exists x. split_and!; [|intros ? [=]|].
      + destruct (decide (p = pos)) as [Heq|Hne]; [|done].
        by rewrite (Hself Heq).
      + intros ? [= <-]. split; intros Hlt.
        * unfold load in Hx |- *. by rewrite <- Hlow.
        * unfold load in Hx |- *. rewrite <- Hmid by lia. done. }
  destruct Hread as (x & Hread & Hvalue & Hreference).
  unfold emplace_from. rewrite decide_False by lia.
  fold index_of. rewrite Hindex. rewrite Hrun. simpl. rewrite Hread. simpl.
  unfold ptr_at. rewrite store_Some by lia.
  exists x. eexists. split; [reflexivity|].
  assert (Helems : take (size_ v + 1) (<[pos := Some x]> st')
                   = take pos (elements v) ++ Some x :: drop pos (elements v)).
  { apply list_eq. intros i. unfold elements.
    destruct (decide (i < pos)) as [Hi|Hi].
    - rewrite lookup_take_lt by lia.
      rewrite list_lookup_insert_ne by lia.
      rewrite lookup_app_l by (rewrite !length_take; lia).
      rewrite !lookup_take_lt by lia. by apply Hlow.
    - rewrite lookup_app_r by (rewrite !length_take; lia).
      rewrite !length_take.
      replace (pos `min` (size_ v `min` length (storage_ v))) with pos by lia.
      destruct (decide (i = pos)) as [->|Hne].
      + rewrite lookup_take_lt by lia.
        rewrite list_lookup_insert_eq by lia.
        by rewrite Nat.sub_diag.
      + destruct (decide (i ≤ size_ v)) as [Hle|Hgt].
        * rewrite lookup_take_lt by lia.
          rewrite list_lookup_insert_ne by lia.
          rewrite Hmid by lia.
          replace (i - pos) with (S (i - pos - 1)) by lia. simpl.
          rewrite lookup_drop. rewrite lookup_take_lt by lia.
          f_equal. lia.
        * rewrite lookup_take_ge by lia. symmetry.
          apply lookup_ge_None_2. simpl.
          rewrite length_drop, length_take. lia. }
  split_and!; [|done|exact Helems|exact Hvalue|exact Hreference].
  unfold wf. simpl. rewrite length_insert.
  split_and!; [lia|lia|done|].
  unfold elements. simpl. rewrite Helems.
  apply Forall_app. split; [by apply Forall_take|].
  apply Forall_cons. split; [by eexists|by apply Forall_drop].
Qed.

(** The same for arguments outside the vector. *)
Lemma emplace_spec pos x v :
  wf max_elements v → pos ≤ size_ v → size_ v < max_elements →
  pos = size_ v ∨ trivially_copyable = true
  ∨ is_Some (load (storage_ v) (size_ v)) →
  ∃ v', emplace moved_from trivially_copyable max_elements pos x v = Returned pos v'
    ∧ wf max_elements v'
    ∧ size_ v' = size_ v + 1
    ∧ elements v' = take pos (elements v) ++ Some x :: drop pos (elements v).
Proof.
  intros Hwf Hpos Hroom Hok.
  destruct (emplace_from_spec pos (by_value x) v)
    as (y & v' & Hrun & Hwf' & Hsize & Hel & Hvalue & _); [done..|].
  rewrite (Hvalue x eq_refl) in Hel. by exists v'.
Qed.

(** Before [end()], for a type that is not trivially copyable, on a vector
    whose slot at [end()] holds no object, the first assignment of the
    shift has no object to assign to: the call is undefined. *)
Lemma emplace_from_undefined pos a v :
  wf max_elements v → pos < size_ v → size_ v < max_elements →
  trivially_copyable = false → load (storage_ v) (size_ v) = None →
  emplace_from moved_from trivially_copyable max_elements pos a v = Undefined.
Proof.
  intros Hwf Hpos Hroom Htc Hraw.
  set (index_of := if decide (pos = cend v) then Some (size_ v)
                   else distance (cbegin v) pos).
  assert (Hindex : index_of = Some pos).
  { unfold index_of, cend, cbegin, distance, data.
    repeat case_decide; first [f_equal; lia | lia]. }
  unfold emplace_from. rewrite decide_False by lia.
  fold index_of. rewrite Hindex. rewrite decide_True by done.
  unfold move_backward, begin, end_, data. rewrite decide_True by lia.
  replace (0 + size_ v - (0 + pos)) with (S (size_ v - pos - 1)) by lia.
  replace (0 + size_ v + 1) with (S (size_ v)) by lia.
  replace (0 + size_ v) with (S (size_ v - 1)) at 1 by lia.
  cbn [move_backward_loop]. unfold move_assign.
  destruct (wf_live max_elements v (size_ v - 1) Hwf) as [y Hy]; [lia|].
  rewrite Hy. simpl. by rewrite assign_None.
Qed.

(** At capacity [emplace] throws before it writes anything, whatever the
    position. *)
Lemma emplace_full pos x v :
  max_elements ≤ size_ v →
  emplace moved_from trivially_copyable max_elements pos x v = Threw CapacityExceeded v.
Proof.
  intros Hfull. unfold emplace, emplace_from. by rewrite decide_True.
Qed.

(** Insertion at [end()], the case of [push_back] and [emplace_back]. *)
Lemma emplace_end_spec x v :
  wf max_elements v → size_ v < max_elements →
  ∃ v', emplace moved_from trivially_copyable max_elements (end_ v) x v = Returned (size_ v) v'
    ∧ wf max_elements v'
    ∧ size_ v' = size_ v + 1
    ∧ elements v' = elements v ++ [Some x].
Proof.
  intros Hwf Hroom.
  destruct (emplace_spec (end_ v) x v) as (v' & Hrun & Hwf' & Hsize & Hel);
    [done|by unfold end_, data|done|by left|].
  exists v'. split; [exact Hrun|]. split; [done|]. split; [done|].
  rewrite Hel. unfold end_, data. simpl.
  pose proof (length_elements _ _ Hwf) as Hlen.
  rewrite take_ge, drop_ge by lia. done.
Qed.

(** The loop shared by the multi-element insertions: the first
    [max_elements - size_] values of the range are inserted in order at
    [pos], and the call throws exactly when some value is left over. *)
Lemma insert_range_loop_spec range : ∀ pos v,
  wf max_elements v → pos ≤ size_ v →
  pos = size_ v ∨ trivially_copyable = true →
  ∃ v',
    insert_range_loop moved_from trivially_copyable max_elements pos range v
    = (if decide (size_ v + length range ≤ max_elements)
       then Returned (pos + length range) v'
       else Threw CapacityExceeded v')
    ∧ wf max_elements v'
    ∧ size_ v' = size_ v + length range `min` (max_elements - size_ v)
    ∧ elements v'
      = take pos (elements v)
        ++ (Some <$> take (max_elements - size_ v) range)
        ++ drop pos (elements v).
Proof.
  induction range as [|x range IH]; intros pos v Hwf Hpos Hok.
  - exists v. simpl. pose proof Hwf as (_ & ? & _).
    rewrite decide_True by lia. unfold ret.
    rewrite Nat.add_0_r, take_nil. simpl. rewrite take_drop.
    split_and!; done || lia.
  - cbn [insert_range_loop length]. unfold bind, insert.
    destruct (decide (size_ v < max_elements)) as [Hroom|Hfull].
    + destruct (emplace_spec pos x v) as (v1 & -> & Hwf1 & Hsize1 & Hel1);
        [done|done|done|destruct Hok; [by left|by right; left]|].
      destruct (IH (pos + 1) v1) as (v' & Hrun & Hwf' & Hsize' & Hel');
        [done|lia|destruct Hok; [left; lia|by right]|].
      exists v'. split; [|split; [done|split]].
      * rewrite Hrun, Hsize1.
        destruct (decide (size_ v + 1 + length range ≤ max_elements));
          [rewrite decide_True by lia; f_equal; lia
          |by rewrite decide_False by lia].
      * lia.
      * rewrite Hel', Hel1, Hsize1.
        pose proof (length_elements _ _ Hwf) as Hlen.
        assert (Hlt : length (take pos (elements v)) = pos)
          by (rewrite length_take; lia).
        rewrite take_app_add' by lia. rewrite drop_app_add' by lia.
        simpl. rewrite take_0, drop_0.
        replace (max_elements - size_ v) with (S (max_elements - (size_ v + 1)))
          by lia.
        simpl. by rewrite <- !app_assoc.
    + rewrite emplace_full by lia.
      pose proof Hwf as (_ & ? & _).
      exists v. rewrite decide_False by lia.
      replace (max_elements - size_ v) with 0 by lia.
      rewrite take_0. simpl. rewrite take_drop.
      split_and!; done || lia.
Qed.

(** [insert(pos, count, value)] with a value outside the vector runs the
    same loop as a range insertion of [count] copies of it. *)
Lemma insert_count_loop_replicate count : ∀ it value v,
  insert_count_loop moved_from trivially_copyable max_elements it count
    (by_value value) v
  = insert_range_loop moved_from trivially_copyable max_elements it
      (replicate count value) v.
Proof.
  induction count as [|count IH]; intros it value v; [done|].
  simpl. unfold bind, insert_from, insert, emplace.
  destruct (emplace_from _ _ _ _ _ _); auto.
Qed.

(** ** [pop_back] and [clear] *)

Lemma pop_back_size v : size_ (pop_back trivially_destructible v) = size_ v - 1.
Proof.
  unfold pop_back. case_decide; [|lia].
  destruct (negb trivially_destructible); reflexivity.
Qed.

Lemma pop_back_max_size v :
  max_size_ (pop_back trivially_destructible v) = max_size_ v.
Proof.
  unfold pop_back. case_decide; [|done].
  destruct (negb trivially_destructible); reflexivity.
Qed.

Lemma length_destroy i (st : list (slot T)) :
  length (destroy trivially_destructible i st) = length st.
Proof.
  unfold destroy. destruct trivially_destructible; [done|].
  apply length_insert.
Qed.

Lemma pop_back_length v :
  length (storage_ (pop_back trivially_destructible v)) = length (storage_ v).
Proof.
  unfold pop_back. case_decide; [|done].
  destruct (negb trivially_destructible); simpl; [|done].
  apply length_destroy.
Qed.

Lemma pop_back_elements v :
  elements (pop_back trivially_destructible v)
  = take (size_ v - 1) (elements v).
Proof.
  unfold pop_back, elements. case_decide.
  - rewrite take_take. replace ((size_ v - 1) `min` size_ v) with (size_ v - 1) by lia.
    destruct (negb trivially_destructible); simpl; [|done].
    unfold destroy, ptr_at. destruct trivially_destructible; [done|].
    by rewrite take_insert_ge.
  - replace (size_ v) with 0 by lia. done.
Qed.

(** The slot [pop_back] leaves behind holds no object when the destructor of
    the element type is not trivial. *)
Lemma pop_back_destroys v :
  trivially_destructible = false → 0 < size_ v → size_ v ≤ length (storage_ v) →
  storage_ (pop_back trivially_destructible v) !! (size_ v - 1) = Some None.
Proof.
  intros Htriv Hpos Hlen. unfold pop_back. rewrite decide_True by done.
  rewrite Htriv. simpl. unfold destroy, ptr_at.
  apply list_lookup_insert_eq. simpl. lia.
Qed.

Lemma pop_back_bounded N v :
  bounded N v → bounded N (pop_back trivially_destructible v).
Proof.
  intros (Hlen & Hsize & Hmax). unfold bounded.
  rewrite pop_back_length, pop_back_size, pop_back_max_size. lia.
Qed.

Lemma clear_loop_spec fuel : ∀ v,
  size_ v ≤ fuel →
  let v' := clear_loop trivially_destructible fuel v in
  size_ v' = 0
  ∧ max_size_ v' = max_size_ v
  ∧ length (storage_ v') = length (storage_ v)
  ∧ (trivially_destructible = false → size_ v ≤ length (storage_ v) →
     ∀ i, i < size_ v → storage_ v' !! i = Some None)
  ∧ (∀ i, size_ v ≤ i → storage_ v' !! i = storage_ v !! i).
Proof.
  induction fuel as [|fuel IH]; intros v Hfuel; simpl.
  - split_and!; auto; [lia|]. intros. lia.
  - case_decide as Hpos.
    + destruct (IH (pop_back trivially_destructible v))
        as (Hsize & Hmax & Hlen & Hdead & Hrest).
      { rewrite pop_back_size. lia. }
      rewrite pop_back_size in Hdead, Hrest.
      rewrite pop_back_max_size in Hmax. rewrite pop_back_length in Hlen, Hdead.
      split_and!; auto.
      * intros Htriv Hle i Hi.
        destruct (decide (i < size_ v - 1)) as [Hlt|Hge].
        -- apply Hdead; [done|lia|done].
        -- rewrite Hrest by lia. replace i with (size_ v - 1) by lia.
           by apply pop_back_destroys.
      * intros i Hi. rewrite Hrest by lia.
        unfold pop_back. rewrite decide_True by done.
        destruct (negb trivially_destructible); simpl; [|done].
        unfold destroy, ptr_at. destruct trivially_destructible; [done|].
        apply list_lookup_insert_ne. lia.
    + split_and!; auto; [lia|]. intros. lia.
Qed.

Lemma clear_unfold v :
  clear trivially_destructible v
  = if trivially_destructible then set_size 0 v
    else clear_loop trivially_destructible (size_ v) v.
Proof. reflexivity. Qed.

Lemma clear_size v : size_ (clear trivially_destructible v) = 0.
Proof.
  rewrite clear_unfold. destruct (clear_loop_spec (size_ v) v) as (? & _); [done|].
  by destruct trivially_destructible.
Qed.

Lemma clear_max_size v :
  max_size_ (clear trivially_destructible v) = max_size_ v.
Proof.
  rewrite clear_unfold.
  destruct (clear_loop_spec (size_ v) v) as (_ & ? & _); [done|].
  by destruct trivially_destructible.
Qed.

Lemma clear_length v :
  length (storage_ (clear trivially_destructible v)) = length (storage_ v).
Proof.
  rewrite clear_unfold.
  destruct (clear_loop_spec (size_ v) v) as (_ & _ & ? & _); [done|].
  by destruct trivially_destructible.
Qed.

(** After [clear] no slot that was live holds an object when the destructor
    of the element type is not trivial. *)
Lemma clear_destroys v i :
  trivially_destructible = false → size_ v ≤ length (storage_ v) →
  i < size_ v → storage_ (clear trivially_destructible v) !! i = Some None.
Proof.
  intros Htriv Hle Hi. rewrite clear_unfold.
  destruct (clear_loop_spec (size_ v) v) as (_ & _ & _ & Hdead & _); [done|].
  specialize (Hdead Htriv Hle i Hi).
  by destruct trivially_destructible.
Qed.

Lemma clear_bounded N v :
  bounded N v → bounded N (clear trivially_destructible v).
Proof.
  intros (Hlen & Hsize & Hmax). unfold bounded.
  rewrite clear_length, clear_size, clear_max_size. lia.
Qed.

Lemma clear_wf N v : bounded N v → wf N (clear trivially_destructible v).
Proof.
  intros Hb. destruct (clear_bounded N v Hb) as (Hlen & Hsize & Hmax).
  unfold wf. split_and!; auto.
  unfold elements. rewrite clear_size. constructor.
Qed.

(** ** [erase(first, last)] *)

Lemma length_destroy_loop n : ∀ it (st : list (slot T)),
  length (destroy_loop trivially_destructible n it st) = length st.
Proof.
  induction n as [|n IH]; intros it st; simpl; [done|].
  by rewrite IH, length_destroy.
Qed.

Lemma destroy_loop_trivial n : ∀ it (st : list (slot T)),
  trivially_destructible = true →
  destroy_loop trivially_destructible n it st = st.
Proof.
  induction n as [|n IH]; intros it st Htriv; simpl; [done|].
  rewrite IH by done. unfold destroy. by rewrite Htriv.
Qed.

(** Every slot the loop visits loses its object when the destructor is not
    trivial. *)
Lemma destroy_loop_lookup n : ∀ it (st : list (slot T)) i,
  trivially_destructible = false → it ≤ i < it + n → i < length st →
  destroy_loop trivially_destructible n it st !! i = Some None.
Proof.
  induction n as [|n IH]; intros it st i Htriv Hi Hlen; [lia|].
  simpl. destruct (decide (i = it)) as [->|Hne].
  - clear IH Hi. generalize (S it), (Nat.lt_succ_diag_r it).
    assert (Hdead : destroy trivially_destructible it st !! it = Some None).
    { unfold destroy. rewrite Htriv. by apply list_lookup_insert_eq. }
    revert Hdead. generalize (destroy trivially_destructible it st).
    induction n as [|n IHn]; intros st' Hdead k Hk; simpl; [done|].
    apply IHn; [|lia]. unfold destroy. rewrite Htriv.
    rewrite list_lookup_insert_ne by lia. done.
  - apply IH; [done|lia|]. by rewrite length_destroy.
Qed.

(** When the element type has a destructor of its own and no default
    constructor, every slot from [first] on has lost its object after
    [erase(first, last)], the elements that were moved there too. *)
Lemma erase_range_destroys_from_first first last v :
  trivially_destructible = false → default_constructible = false →
  wf max_elements v → first < last → last ≤ size_ v →
  ∃ v', erase_range moved_from trivially_copyable trivially_destructible default_constructible
          first last v = Returned first v'
    ∧ size_ v' = size_ v - (last - first)
    ∧ (∀ i, first ≤ i < size_ v' → elements v' !! i = Some None).
Proof.
  intros Htriv Hdef Hwf Hfl Hls.
  pose proof Hwf as (Hlen & Hsize & Hmax & Hall).
  destruct (move_loop_shift moved_from trivially_copyable (size_ v - last) last first (storage_ v))
    as (st' & Hrun & Hlen' & _); [done|lia| | |].
  { intros j Hj. apply (wf_live max_elements); [done|lia]. }
  { right. intros j Hj. apply (wf_live max_elements); [done|lia]. }
  unfold erase_range. unfold distance at 1 2, cbegin, data.
  rewrite !decide_True by lia. rewrite Nat.sub_0_r.
  unfold move, begin, end_, data. simpl.
  replace (first + (last - first)) with last by lia.
  rewrite decide_True by lia. rewrite Hrun. simpl.
  rewrite Hdef. simpl. rewrite decide_True by lia.
  eexists. split; [reflexivity|]. simpl. split; [done|].
  intros i Hi. unfold elements; simpl.
  rewrite lookup_take_lt by lia.
  apply destroy_loop_lookup; [done|lia|lia].
Qed.


(** ** The counters stay in range *)

Local Abbreviation emplace' := (emplace moved_from trivially_copyable max_elements).

Lemma emplace_from_bounded pos a v :
  bounded max_elements v →
  ensures (bounded max_elements)
    (emplace_from moved_from trivially_copyable max_elements pos a v).
Proof.
  intros (Hlen & Hsize & Hmax). unfold emplace_from.
  case_decide as Hfull; [by split_and!|].
  destruct (if decide (pos = cend v) then _ else _) as [index|]; [|done].
  destruct (_ ≫= _) as [st|] eqn:Hst; [|done]. simpl.
  apply bind_Some in Hst as (st0 & Hst0 & Hst).
  apply bind_Some in Hst as (x & _ & Hst%store_length).
  assert (length st0 = length (storage_ v)) as Hlen0.
  { case_decide; [by eapply move_backward_length|by injection Hst0 as <-]. }
  unfold bounded; simpl. split_and!; [congruence|lia|done].
Qed.

Lemma emplace_bounded pos x v :
  bounded max_elements v →
  ensures (bounded max_elements) (emplace' pos x v).
Proof. apply emplace_from_bounded. Qed.

Lemma insert_range_loop_bounded range : ∀ it v,
  bounded max_elements v →
  ensures (bounded max_elements)
    (insert_range_loop moved_from trivially_copyable max_elements it range v).
Proof.
  induction range as [|x range IH]; intros it v Hb; [done|].
  simpl. apply ensures_bind; [by apply emplace_bounded|].
  intros it' v' Hb'. by apply IH.
Qed.

Lemma insert_range_bounded pos range v :
  bounded max_elements v →
  ensures (bounded max_elements)
    (insert_range moved_from trivially_copyable max_elements pos range v).
Proof.
  intros Hb. unfold insert_range. destruct (distance _ _); [|done].
  by apply insert_range_loop_bounded.
Qed.

Lemma insert_count_loop_bounded count value : ∀ it v,
  bounded max_elements v →
  ensures (bounded max_elements)
    (insert_count_loop moved_from trivially_copyable max_elements it count value v).
Proof.
  induction count as [|count IH]; intros it v Hb; [done|].
  simpl. apply ensures_bind; [by apply emplace_from_bounded|].
  intros it' v' Hb'. by apply IH.
Qed.

Lemma insert_count_bounded pos count value v :
  bounded max_elements v →
  ensures (bounded max_elements)
    (insert_count moved_from trivially_copyable max_elements pos count value v).
Proof.
  intros Hb. unfold insert_count. destruct (distance _ _); [|done].
  by apply insert_count_loop_bounded.
Qed.

Lemma erase_bounded pos v :
  bounded max_elements v →
  ensures (bounded max_elements) (erase moved_from trivially_copyable trivially_destructible pos v).
Proof.
  intros Hb. unfold erase. destruct (distance _ _) as [index|]; [|done].
  case_decide; [|done].
  destruct (move _ _ _ _ _) as [st|] eqn:Hst; [|done]. simpl.
  apply move_length in Hst. apply pop_back_bounded.
  destruct Hb as (Hlen & Hsize & Hmax).
  unfold bounded; simpl. split_and!; [congruence|done..].
Qed.

Lemma erase_range_bounded first last v :
  bounded max_elements v →
  ensures (bounded max_elements)
    (erase_range moved_from trivially_copyable trivially_destructible default_constructible
       first last v).
Proof.
  intros (Hlen & Hsize & Hmax). unfold erase_range.
  destruct (distance (cbegin v) first) as [index|]; [|done].
  destruct (distance first last) as [count|]; [|done].
  destruct (if decide (index < size_ v) then _ else _) as [st|] eqn:Hst; [|done].
  destruct (decide (count ≤ size_ v)); [|done]. simpl.
  assert (length st = length (storage_ v)) as Hlen'.
  { case_decide; [|by injection Hst as <-].
    apply bind_Some in Hst as (st0 & Hst0%move_length & [= <-]).
    destruct (negb default_constructible); [|done].
    by rewrite length_destroy_loop. }
  unfold bounded; simpl. split_and!; [congruence|lia|done].
Qed.

Lemma discard_bounded {A} (m : vector → outcome vector A) v :
  ensures (bounded max_elements) (m v) →
  ensures (bounded max_elements) (discard m v).
Proof.
  intros Hm. unfold discard. apply ensures_bind; [done|]. by intros.
Qed.

Lemma at_bounded pos v :
  bounded max_elements v → ensures (bounded max_elements) (at_ pos v).
Proof. intros Hb. unfold at_. by case_decide. Qed.

(** Every operation leaves the counters in range. *)
Lemma run_bounded o v :
  bounded max_elements v →
  ensures (bounded max_elements)
    (run moved_from trivially_copyable trivially_destructible default_constructible
       max_elements o v).
Proof.
  intros Hb. destruct o; simpl;
    try (apply discard_bounded);
    unfold insert, insert_list, push_back, emplace_back;
    auto using at_bounded, emplace_bounded, insert_range_bounded,
      insert_count_bounded, erase_bounded, erase_range_bounded,
      clear_bounded, pop_back_bounded.
Qed.

(** ** Copy and move *)

Lemma copy_loop_bounded n : ∀ i other this,
  bounded max_elements this →
  ensures (bounded max_elements) (copy_loop moved_from trivially_copyable max_elements n i other this).
Proof.
  induction n as [|n IH]; intros i other this Hb; [done|].
  simpl. destruct (load _ _) as [x|]; [|done].
  apply ensures_bind; [by apply emplace_bounded|].
  intros _ this' Hb'. by apply IH.
Qed.

Lemma copy_from_bounded other this :
  bounded max_elements other → bounded max_elements this →
  ensures (bounded max_elements) (copy_from moved_from trivially_copyable max_elements other this).
Proof.
  intros (_ & Hsize & _) Hb. unfold copy_from.
  apply ensures_bind; [by apply copy_loop_bounded|].
  intros _ this' (Hlen' & _ & Hmax'). by split_and!.
Qed.

Lemma move_from_loop_bounded n : ∀ i this other,
  bounded max_elements this → bounded max_elements other →
  ensures (λ s, bounded max_elements s.1 ∧ bounded max_elements s.2)
    (move_from_loop moved_from trivially_copyable max_elements n i (this, other)).
Proof.
  induction n as [|n IH]; intros i this other Hb Hbo; [done|].
  simpl. destruct (load _ _) as [x|]; [|done].
  pose proof (emplace_bounded (end_ this) x this Hb) as Hens.
  unfold emplace_back.
  destruct (emplace' (end_ this) x this) as [a this'|e this'| |]; simpl in *;
    [|done..].
  destruct (store _ _ _) as [st|] eqn:Hst; [|done].
  apply IH; [done|]. apply store_length in Hst.
  destruct Hbo as (? & ? & ?). unfold bounded; simpl.
  split_and!; [congruence|done..].
Qed.

Lemma move_from_bounded this other :
  bounded max_elements this → bounded max_elements other →
  ensures (λ s, bounded max_elements s.1 ∧ bounded max_elements s.2)
    (move_from moved_from trivially_copyable trivially_destructible max_elements (this, other)).
Proof.
  intros Hb Hbo. unfold move_from. simpl.
  pose proof (move_from_loop_bounded (size_ other) 0 this other Hb Hbo)
    as Hens.
  destruct (move_from_loop _ _ _ _ _) as [[] [this' other']|e s| |];
    simpl in *; [|done..].
  destruct Hens as ((? & ? & ?) & Hbo'). split.
  - pose proof Hbo' as (? & ? & ?). by split_and!.
  - by apply clear_bounded.
Qed.

(** Moving [n] elements out of [other], from its slot [i] on, into the end
    of [this]. *)
Lemma move_from_loop_spec n : ∀ i this other,
  wf max_elements this → size_ this = i →
  bounded max_elements other → i + n ≤ size_ other →
  (∀ j, i ≤ j < i + n → is_Some (load (storage_ other) j)) →
  ∃ this' other',
    move_from_loop moved_from trivially_copyable max_elements n i (this, other)
    = Returned tt (this', other')
    ∧ wf max_elements this'
    ∧ size_ this' = i + n
    ∧ elements this' = elements this ++ take n (drop i (storage_ other))
    ∧ bounded max_elements other'
    ∧ size_ other' = size_ other.
Proof.
  induction n as [|n IH]; intros i this other Hwf Hi Hbo Hin Hlive.
  - exists this, other. simpl. rewrite app_nil_r.
    split_and!; done || lia.
  - destruct (Hlive i) as [x Hx]; [lia|].
    pose proof Hbo as (Hlen & Hsize & Hmax).
    cbn [move_from_loop]. rewrite Hx. unfold emplace_back.
    destruct (emplace_end_spec x this) as (this1 & -> & Hwf1 & Hsize1 & Hel1);
      [done|lia|].
    rewrite store_Some by lia.
    set (other1 := set_storage _ other).
    destruct (IH (S i) this1 other1) as (this' & other' & -> & Hwf' & Hsize' & Hel' & Hbo' & Hso').
    + done.
    + lia.
    + unfold bounded, other1; simpl. rewrite length_insert. by split_and!.
    + unfold other1; simpl. lia.
    + intros j Hj. unfold other1, load; simpl.
      rewrite list_lookup_insert_ne by lia. apply Hlive. lia.
    + exists this', other'. split; [done|].
      split_and!; [done|lia| |done|done].
      rewrite Hel', Hel1. unfold other1; simpl.
      rewrite drop_insert_lt by lia.
      apply load_Some in Hx. rewrite (drop_S _ _ _ Hx). simpl.
      by rewrite <- app_assoc.
Qed.

(** The common part of move construction and move assignment: an empty
    destination takes over the elements of the source, which [clear]
    empties. *)
Lemma move_from_spec this other :
  wf max_elements this → size_ this = 0 → wf max_elements other →
  ∃ this' other',
    move_from moved_from trivially_copyable trivially_destructible max_elements (this, other)
    = Returned tt (this', other')
    ∧ wf max_elements this'
    ∧ size_ this' = size_ other
    ∧ elements this' = elements other
    ∧ wf max_elements other'
    ∧ size_ other' = 0
    ∧ (trivially_destructible = false →
       ∀ i, i < size_ other → storage_ other' !! i = Some None).
Proof.
  intros Hwf Hempty Hwfo.
  pose proof Hwfo as (Hlen & Hsize & Hmax & Hall).
  destruct (move_from_loop_spec (size_ other) 0 this other)
    as (this' & other' & Hrun & Hwf' & Hsize' & Hel' & Hbo' & Hso');
    [done|done|by split_and!|lia| |].
  { intros j Hj. apply (wf_live max_elements); [done|lia]. }
  unfold move_from. simpl. rewrite Hrun.
  eexists _, _. split; [reflexivity|].
  assert (Hset : set_size (size_ other') this' = this').
  { destruct this'; unfold set_size; simpl in *. f_equal. lia. }
  rewrite Hset.
  split_and!; [done|lia| |by apply clear_wf|by apply clear_size|].
  - rewrite Hel'. unfold elements at 1. by rewrite Hempty.
  - intros Htriv i Hi. destruct Hbo' as (? & ? & ?).
    apply clear_destroys; [done|lia|lia].
Qed.

(** A run of [push_back] calls appends the values that fit, and throws
    exactly when one is left over. *)
Lemma push_back_all_spec values : ∀ v,
  wf max_elements v →
  ∃ v',
    push_back_all moved_from trivially_copyable max_elements values v
    = (if decide (size_ v + length values ≤ max_elements)
       then Returned tt v' else Threw CapacityExceeded v')
    ∧ wf max_elements v'
    ∧ size_ v' = size_ v + length values `min` (max_elements - size_ v)
    ∧ elements v'
      = elements v ++ (Some <$> take (max_elements - size_ v) values).
Proof.
  induction values as [|x values IH]; intros v Hwf.
  - exists v. pose proof Hwf as (_ & ? & _).
    cbn [push_back_all length]. rewrite decide_True by lia.
    rewrite take_nil, app_nil_r. split_and!; done || lia.
  - cbn [push_back_all length]. unfold bind, push_back.
    destruct (decide (size_ v < max_elements)) as [Hroom|Hfull].
    + destruct (emplace_end_spec x v) as (v1 & -> & Hwf1 & Hsize1 & Hel1);
        [done..|].
      destruct (IH v1 Hwf1) as (v' & Hrun & Hwf' & Hsize' & Hel').
      exists v'. split_and!; [|done|lia|].
      * rewrite Hrun, Hsize1.
        destruct (decide (size_ v + 1 + length values ≤ max_elements));
          [by rewrite decide_True by lia|by rewrite decide_False by lia].
      * rewrite Hel', Hel1, Hsize1.
        replace (max_elements - size_ v) with (S (max_elements - (size_ v + 1)))
          by lia.
        cbn [take fmap list_fmap]. by rewrite <- app_assoc.
    + rewrite emplace_full by lia.
      pose proof Hwf as (_ & ? & _).
      exists v. rewrite decide_False by lia.
      replace (max_elements - size_ v) with 0 by lia.
      rewrite take_0. cbn [fmap list_fmap]. rewrite app_nil_r.
      split_and!; done || lia.
Qed.

(** ** Reachable states *)

Lemma reachable_bounded v :
  reachable moved_from trivially_copyable trivially_destructible default_constructible
    max_elements v →
  bounded max_elements v.
Proof.
  induction 1 as
    [ | o v v' _ IH _ Hrun | o v e v' _ IH _ Hrun
    | other v' _ IHo Hrun | other v v' _ IHo _ IH Hrun
    | other v' other' _ IHo Hrun | other v' other' _ IHo Hrun
    | other v v' other' _ IHo _ IH Hrun | other v v' other' _ IHo _ IH Hrun ].
  - pose proof wf_default as (? & ? & ? & _). by split_and!.
  - eapply ensures_returned; [|exact Hrun]. by apply run_bounded.
  - eapply ensures_threw; [|exact Hrun]. by apply run_bounded.
  - eapply ensures_returned; [|exact Hrun].
    apply copy_from_bounded; [done|].
    pose proof wf_default as (? & ? & ? & _). by split_and!.
  - eapply ensures_returned; [|exact Hrun].
    apply copy_from_bounded; [done|]. by apply clear_bounded.
  - eapply (ensures_returned (λ s, bounded _ s.1 ∧ bounded _ s.2)) in Hrun;
      [apply Hrun|].
    apply ensures_noexcept, move_from_bounded; [|done].
    pose proof wf_default as (? & ? & ? & _). by split_and!.
  - eapply (ensures_returned (λ s, bounded _ s.1 ∧ bounded _ s.2)) in Hrun;
      [apply Hrun|].
    apply ensures_noexcept, move_from_bounded; [|done].
    pose proof wf_default as (? & ? & ? & _). by split_and!.
  - eapply (ensures_returned (λ s, bounded _ s.1 ∧ bounded _ s.2)) in Hrun;
      [apply Hrun|].
    apply ensures_noexcept, move_from_bounded; [|done]. by apply clear_bounded.
  - eapply (ensures_returned (λ s, bounded _ s.1 ∧ bounded _ s.2)) in Hrun;
      [apply Hrun|].
    apply ensures_noexcept, move_from_bounded; [|done]. by apply clear_bounded.
Qed.

End vector_facts.

(** * The properties of the specification *)

Section specification.

Context {T : Type}.
Variable moved_from : T → T.
Variable trivially_copyable : bool.
Variable trivially_destructible default_constructible : bool.
Variable max_elements : nat.
Implicit Types (v : @vector T) (x value : T).

Local Abbreviation emplace' := (emplace moved_from trivially_copyable max_elements).
Local Abbreviation push_back' := (push_back moved_from trivially_copyable max_elements).

(** C1. For an element type that is not trivially copyable,
    [emplace(pos, args...)] below the capacity at a position before [end()]
    has undefined behaviour when the slot at [end()] holds no object, as it
    does after the [push_back] calls that filled the vector:
    [std::move_backward(begin() + index, end(), end() + 1)] begins with a
    move-assignment to that slot, where the specification has a
    move-construction.  The call shifts no element, constructs nothing and
    returns no position. *)
Theorem emplace_assigns_to_unconstructed_slot pos x v :
  wf max_elements v → size v < max_elements → begin v ≤ pos < end_ v →
  trivially_copyable = false → load (storage_ v) (size v) = None →
  emplace' pos x v = Undefined.
Proof.
  intros Hwf Hroom [_ Hpos] Htc Hraw. unfold end_, data in Hpos.
  apply emplace_from_undefined; [done|lia|done..].
Qed.

(** C2. While [size() < max_size()], [push_back] returns and the size grows
    by exactly 1; at [size() == max_size()], [push_back] and [emplace] at
    any position throw CapacityExceeded and leave the whole object as it
    was.  A run of [push_back] calls therefore appends the values that fit
    and then throws. *)
Theorem push_back_grows_until_full value v :
  wf max_elements v →
  (size v < max_size v →
   ∃ v', push_back' value v = Returned (size v) v'
     ∧ size v' = size v + 1
     ∧ elements v' = elements v ++ [Some value])
  ∧ (size v = max_size v →
     push_back' value v = Threw CapacityExceeded v
     ∧ ∀ pos x, emplace' pos x v = Threw CapacityExceeded v)
  ∧ (∀ values, ∃ v',
       push_back_all moved_from trivially_copyable max_elements values v
       = (if decide (size v + length values ≤ max_size v)
          then Returned tt v' else Threw CapacityExceeded v')
       ∧ size v' = size v + length values `min` (max_size v - size v)
       ∧ elements v'
         = elements v ++ (Some <$> take (max_size v - size v) values)).
Proof.
  intros Hwf. pose proof Hwf as (_ & _ & Hmax & _).
  unfold size, max_size. rewrite Hmax. split_and!.
  - intros Hroom.
    destruct (emplace_end_spec moved_from trivially_copyable max_elements value v)
      as (v' & Hrun & _ & Hsize & Hel); [done..|].
    by exists v'.
  - intros Hfull. split; [|intros pos x]; apply emplace_full; lia.
  - intros values.
    destruct (push_back_all_spec moved_from trivially_copyable max_elements values v Hwf)
      as (v' & Hrun & _ & Hsize & Hel).
    by exists v'.
Qed.

(** C3. For an element type that is not trivially copyable, each
    multi-element insertion ([count] copies, a range, an initializer list)
    of at least one value, below the capacity at a position before [end()],
    has undefined behaviour when the slot at [end()] holds no object: its
    first [insert] is the [emplace] whose shift assigns to that slot.
    Nothing is inserted and no CapacityExceeded is thrown. *)
Theorem multi_insert_assigns_to_unconstructed_slot pos v :
  wf max_elements v → size v < max_elements → begin v ≤ pos < end_ v →
  trivially_copyable = false → load (storage_ v) (size v) = None →
  (∀ count (a : argument), 0 < count →
     insert_count moved_from trivially_copyable max_elements pos count a v
     = Undefined)
  ∧ (∀ range, range ≠ [] →
       insert_range moved_from trivially_copyable max_elements pos range v
       = Undefined)
  ∧ (∀ il, il ≠ [] →
       insert_list moved_from trivially_copyable max_elements pos il v
       = Undefined).
Proof.
  intros Hwf Hroom [_ Hpos] Htc Hraw. unfold end_, data in Hpos.
  assert (Hfirst : ∀ a,
    emplace_from moved_from trivially_copyable max_elements pos a v = Undefined)
    by (intros a; apply emplace_from_undefined; [done|lia|done..]).
  assert (Hdist : distance (cbegin v) pos = Some pos).
  { unfold distance, cbegin, data. rewrite decide_True by lia.
    f_equal. lia. }
  assert (Hloop : ∀ range, range ≠ [] →
    insert_range_loop moved_from trivially_copyable max_elements pos range v
    = Undefined).
  { intros [|x range] Hne; [done|].
    cbn [insert_range_loop]. unfold bind, insert, emplace.
    by rewrite Hfirst. }
  split_and!.
  - intros [|count] a Hcount; [lia|].
    unfold insert_count. rewrite Hdist. unfold begin, data.
    cbn [insert_count_loop]. unfold bind, insert_from.
    replace (0 + pos) with pos by lia. by rewrite Hfirst.
  - intros range Hne. unfold insert_range. rewrite Hdist.
    unfold begin, data. replace (0 + pos) with pos by lia. by apply Hloop.
  - intros il Hne. unfold insert_list, insert_range. rewrite Hdist.
    unfold begin, data. replace (0 + pos) with pos by lia. by apply Hloop.
Qed.

(** C5. Every state reachable from a default-constructed vector by public
    operations called within their preconditions has
    [0 <= size() <= max_size()], and [max_size()] is the capacity. *)
Theorem reachable_size_in_range v :
  reachable moved_from trivially_copyable trivially_destructible default_constructible
    max_elements v →
  0 ≤ size v ≤ max_size v ∧ max_size v = max_elements.
Proof.
  intros (Hlen & Hsize & Hmax)%reachable_bounded.
  unfold size, max_size. lia.
Qed.

(** C6. [at(i)] throws IndexOutOfRange exactly when [i >= size()];
    otherwise it returns a reference to slot [i], which holds the [i]-th live
    element; in both cases the object is left as it was. *)
Theorem at_checks_index i v :
  (at_ i v = Threw IndexOutOfRange v ↔ size v ≤ i)
  ∧ (i < size v ↔ at_ i v = Returned (ptr_at i) v)
  ∧ (i < size v → deref v (ptr_at i) = mjoin (elements v !! i))
  ∧ ensures (λ v', v' = v) (at_ i v).
Proof.
  unfold at_, size. split_and!.
  - case_decide; split; (done || lia).
  - case_decide; split; (done || lia).
  - intros Hi. unfold deref, load, ptr_at, elements.
    by rewrite lookup_take_lt.
  - by case_decide.
Qed.

(** C7, as amended.  Move construction, and move assignment between two
    different objects, give the destination the size and the elements, in
    order, that the source had, and leave the source with [size() == 0],
    its former elements destroyed.  Move assignment of an object to itself
    changes nothing. *)
Theorem move_transfers_unless_self :
  (∀ s, wf max_elements s →
     ∃ d' s',
       move_construct moved_from trivially_copyable trivially_destructible max_elements s
       = Returned tt (d', s')
       ∧ size d' = size s ∧ elements d' = elements s
       ∧ size s' = 0
       ∧ (trivially_destructible = false →
          ∀ i, i < size s → storage_ s' !! i = Some None))
  ∧ (∀ this other (h : gmap nat vector) d s,
       this ≠ other → h !! this = Some d → h !! other = Some s →
       wf max_elements d → wf max_elements s →
       ∃ d' s',
         move_assignment moved_from trivially_copyable trivially_destructible max_elements
           this other h
         = Returned tt (<[other := s']> (<[this := d']> h))
         ∧ size d' = size s ∧ elements d' = elements s
         ∧ size s' = 0
         ∧ (trivially_destructible = false →
            ∀ i, i < size s → storage_ s' !! i = Some None))
  ∧ (∀ this (h : gmap nat vector),
       move_assignment moved_from trivially_copyable trivially_destructible max_elements
         this this h
       = Returned tt h).
Proof.
  split_and!.
  - intros s Hwf. unfold move_construct.
    destruct (move_from_spec moved_from trivially_copyable trivially_destructible max_elements
                (default_vector max_elements) s)
      as (d' & s' & -> & _ & Hsize & Hel & _ & Hempty & Hdead);
      [apply wf_default|done|done|].
    by exists d', s'.
  - intros this other h d s Hne Hd Hs Hwfd Hwfs.
    unfold move_assignment, move_assign_body.
    rewrite decide_True by done. rewrite Hd, Hs. simpl.
    destruct (move_from_spec moved_from trivially_copyable trivially_destructible max_elements
                (clear trivially_destructible d) s)
      as (d' & s' & -> & _ & Hsize & Hel & _ & Hempty & Hdead).
    + apply clear_wf. destruct Hwfd as (? & ? & ? & _). by split_and!.
    + apply clear_size.
    + done.
    + simpl. by exists d', s'.
  - intros this h. unfold move_assignment. by rewrite decide_False by auto.
Qed.

(** C9. On a non-empty vector [pop_back()] returns with the live count
    lowered by 1 and the last element no longer among the live ones, its
    destructor run when it is not trivial; on an empty vector it returns,
    without an exception, and the object is as it was. *)
Theorem pop_back_drops_last v :
  run moved_from trivially_copyable trivially_destructible default_constructible max_elements
    op_pop_back v
  = Returned tt (pop_back trivially_destructible v)
  ∧ (0 < size v →
     size (pop_back trivially_destructible v) = size v - 1
     ∧ elements (pop_back trivially_destructible v)
       = take (size v - 1) (elements v)
     ∧ (trivially_destructible = false → size v ≤ length (storage_ v) →
        storage_ (pop_back trivially_destructible v) !! (size v - 1)
        = Some None))
  ∧ (size v = 0 → pop_back trivially_destructible v = v).
Proof.
  split_and!; [done| |].
  - intros Hpos. unfold size in *.
    rewrite pop_back_size, pop_back_elements. split_and!; [done..|].
    intros Htriv Hlen. by apply pop_back_destroys.
  - unfold size, pop_back. intros ->. by rewrite decide_False by lia.
Qed.

(** C10. The failure of [at] and the failure of an insertion at capacity
    are both objects of class [std::out_of_range]: any handler is entered
    for the one exactly when it is entered for the other, and the two
    differ in their message only. *)
Theorem both_errors_are_out_of_range :
  (∀ i v e v', at_ i v = Threw e v' → e = IndexOutOfRange)
  ∧ (∀ pos x v e v', emplace' pos x v = Threw e v' → e = CapacityExceeded)
  ∧ ex_type IndexOutOfRange = std_out_of_range
  ∧ ex_type CapacityExceeded = std_out_of_range
  ∧ (∀ handler,
       catches handler IndexOutOfRange = catches handler CapacityExceeded)
  ∧ what IndexOutOfRange = "index out of range"
  ∧ what CapacityExceeded = "vector capacity exceeded"
  ∧ what IndexOutOfRange ≠ what CapacityExceeded.
Proof.
  split_and!; try done.
  - intros i v e v'. unfold at_. case_decide; [|done]. by intros [= <- _].
  - intros pos x v e v'. unfold emplace, emplace_from.
    case_decide; [by intros [= <- _]|].
    destruct (if decide (pos = cend v) then _ else _); [|done].
    by destruct (_ ≫= _).
Qed.

End specification.

(** * The concrete scenarios *)

(** Well-formedness of a vector given by its fields. *)
Ltac wf_by_computation :=
  unfold wf, elements; simpl;
  split_and!;
    [reflexivity | lia | reflexivity
    | repeat (apply List.Forall_cons; [by eexists|]); apply List.Forall_nil].

(** Two [push_back] calls on an empty vector of capacity 5 whose element
    type is not trivially copyable, then [emplace(begin(), 9)]. *)
Lemma emplace_assigns_to_unconstructed_slot_witness :
  push_back_all moved_from_int false 5 [1; 2] (default_vector 5)
  = Returned tt vec_12
  ∧ wf 5 vec_12 ∧ size vec_12 < 5 ∧ begin vec_12 ≤ 0 < end_ vec_12
  ∧ load (storage_ vec_12) (size vec_12) = None
  ∧ emplace moved_from_int false 5 0 9 vec_12 = Undefined.
Proof.
  assert (Hwf : wf 5 vec_12) by wf_by_computation.
  assert (Hroom : size vec_12 < 5) by (vm_compute; lia).
  assert (Hpos : begin vec_12 ≤ 0 < end_ vec_12) by (vm_compute; lia).
  assert (Hraw : load (storage_ vec_12) (size vec_12) = None) by reflexivity.
  refine (conj eq_refl (conj Hwf (conj Hroom (conj Hpos (conj Hraw _))))).
  exact (emplace_assigns_to_unconstructed_slot moved_from_int false 5 0 9
           vec_12 Hwf Hroom Hpos eq_refl Hraw).
Defined.

(** The fourth [push_back] on a [vector<int, 3>] holding 1, 2, 3 throws and
    leaves it as it was; a [push_back] on a [vector<int, 5>] holding 1, 2
    succeeds. *)
Lemma push_back_grows_until_full_witness :
  (wf 3 vec_full ∧ size vec_full = max_size vec_full
   ∧ push_back moved_from_int true 3 4 vec_full = Threw CapacityExceeded vec_full)
  ∧ (wf 5 vec_12 ∧ size vec_12 < max_size vec_12
     ∧ ∃ v', push_back moved_from_int true 5 3 vec_12 = Returned 2 v'
         ∧ size v' = 3
         ∧ elements v' = [Some 1; Some 2; Some 3]).
Proof.
  assert (Hfull : wf 3 vec_full) by wf_by_computation.
  assert (Hwf : wf 5 vec_12) by wf_by_computation.
  assert (Hat : size vec_full = max_size vec_full) by reflexivity.
  assert (Hbelow : size vec_12 < max_size vec_12) by (vm_compute; lia).
  refine (conj (conj Hfull (conj Hat _)) (conj Hwf (conj Hbelow _))).
  - by apply (push_back_grows_until_full moved_from_int true 3 4 vec_full Hfull).
  - by apply (push_back_grows_until_full moved_from_int true 5 3 vec_12 Hwf).
Defined.

(** The three insertions at [begin()] of a vector of capacity 5 that holds
    1, 2 and whose element type is not trivially copyable. *)
Lemma multi_insert_assigns_to_unconstructed_slot_witness :
  wf 5 vec_12 ∧ size vec_12 < 5 ∧ begin vec_12 ≤ 0 < end_ vec_12
  ∧ load (storage_ vec_12) (size vec_12) = None
  ∧ insert_count moved_from_int false 5 0 2 (by_value 7) vec_12 = Undefined
  ∧ insert_range moved_from_int false 5 0 [7; 8] vec_12 = Undefined
  ∧ insert_list moved_from_int false 5 0 [7; 8] vec_12 = Undefined.
Proof.
  assert (Hwf : wf 5 vec_12) by wf_by_computation.
  assert (Hroom : size vec_12 < 5) by (vm_compute; lia).
  assert (Hpos : begin vec_12 ≤ 0 < end_ vec_12) by (vm_compute; lia).
  assert (Hraw : load (storage_ vec_12) (size vec_12) = None) by reflexivity.
  refine (conj Hwf (conj Hroom (conj Hpos (conj Hraw _)))).
  destruct (multi_insert_assigns_to_unconstructed_slot moved_from_int false 5
              0 vec_12 Hwf Hroom Hpos eq_refl Hraw)
    as (Hcount & Hrange & Hlist).
  split_and!; [apply Hcount; lia|by apply Hrange|by apply Hlist].
Defined.

(** The state [main.cpp] ends in is reachable, and in range. *)
Lemma reachable_size_in_range_witness :
  let v := {| storage_ := [Some 5; Some 2; Some 3; Some 5; Some 4; Some 4;
                           Some 2; Some 5; None; None];
              size_ := 8; max_size_ := 10 |} in
  reachable moved_from_int true true true 10 v
  ∧ 0 ≤ size v ≤ max_size v ∧ max_size v = 10.
Proof.
  intros v.
  assert (Hreach : reachable moved_from_int true true true 10 v).
  { apply (reach_returned _ _ _ _ _ (op_insert_list 1 [2; 3; 5; 4; 4; 2; 5])
             vec_main).
    - apply (reach_returned _ _ _ _ _ (op_push_back 5) (default_vector 10)).
      + apply reach_default.
      + exact I.
      + reflexivity.
    - vm_compute; lia.
    - reflexivity. }
  split; [exact Hreach|].
  apply (reachable_size_in_range moved_from_int true true true 10 v Hreach).
Defined.

(** [at(1)] and [at(2)] on a vector holding 1, 2. *)
Lemma at_checks_index_witness :
  1 < size vec_12 ∧ size vec_12 ≤ 2
  ∧ at_ 1 vec_12 = Returned 1 vec_12
  ∧ deref vec_12 1 = Some 2
  ∧ at_ 2 vec_12 = Threw IndexOutOfRange vec_12.
Proof.
  assert (Hin : 1 < size vec_12) by (vm_compute; lia).
  assert (Hout : size vec_12 ≤ 2) by (vm_compute; lia).
  refine (conj Hin (conj Hout (conj _ (conj _ _)))).
  - by apply (at_checks_index 1 vec_12).
  - destruct (at_checks_index 1 vec_12) as (_ & _ & Hderef & _).
    exact (Hderef Hin).
  - by apply (at_checks_index 2 vec_12).
Defined.

(** Move construction from, and move assignment to another object from, a
    [vector<int, 5>] holding 1, 2. *)
Lemma move_transfers_unless_self_witness :
  let h : gmap nat (@vector nat) :=
    {[ 0 := default_vector 5; 1 := vec_12 ]} in
  wf 5 vec_12 ∧ wf 5 (@default_vector nat 5) ∧ 0 ≠ 1
  ∧ h !! 0 = Some (default_vector 5) ∧ h !! 1 = Some vec_12
  ∧ (∃ d' s', move_construct moved_from_int true true 5 vec_12 = Returned tt (d', s')
       ∧ size d' = 2 ∧ elements d' = [Some 1; Some 2] ∧ size s' = 0)
  ∧ (∃ d' s', move_assignment moved_from_int true true 5 0 1 h
              = Returned tt (<[1 := s']> (<[0 := d']> h))
       ∧ size d' = 2 ∧ elements d' = [Some 1; Some 2] ∧ size s' = 0).
Proof.
  intros h.
  assert (Hwf : wf 5 vec_12) by wf_by_computation.
  assert (Hwfd : wf 5 (@default_vector nat 5)) by wf_by_computation.
  assert (Hne : 0 ≠ 1) by lia.
  assert (Hd : h !! 0 = Some (default_vector 5)) by reflexivity.
  assert (Hs : h !! 1 = Some vec_12) by reflexivity.
  refine (conj Hwf (conj Hwfd (conj Hne (conj Hd (conj Hs (conj _ _)))))).
  - destruct (move_transfers_unless_self moved_from_int true true 5) as (Hctor & _).
    destruct (Hctor vec_12 Hwf) as (d' & s' & Hrun & Hsize & Hel & Hempty & _).
    by exists d', s'.
  - destruct (move_transfers_unless_self moved_from_int true true 5)
      as (_ & Hassign & _).
    destruct (Hassign 0 1 h _ _ Hne Hd Hs Hwfd Hwf)
      as (d' & s' & Hrun & Hsize & Hel & Hempty & _).
    by exists d', s'.
Defined.

(** [pop_back()] on a vector holding 1, 2 whose element type has a
    destructor of its own, and on an empty vector. *)
Lemma pop_back_drops_last_witness :
  0 < size vec_12 ∧ size (@default_vector nat 5) = 0
  ∧ size (pop_back false vec_12) = 1
  ∧ elements (pop_back false vec_12) = [Some 1]
  ∧ storage_ (pop_back false vec_12) !! 1 = Some None
  ∧ pop_back false (@default_vector nat 5) = default_vector 5.
Proof.
  assert (Hpos : 0 < size vec_12) by (vm_compute; lia).
  assert (Hempty : size (@default_vector nat 5) = 0) by reflexivity.
  destruct (pop_back_drops_last moved_from_int false false true 5 vec_12)
    as (_ & Hlast & _).
  destruct (Hlast Hpos) as (Hsize & Hel & Hdead).
  destruct (pop_back_drops_last moved_from_int false false true 5 (default_vector 5))
    as (_ & _ & Hnoop).
  refine (conj Hpos (conj Hempty (conj Hsize (conj Hel
            (conj _ (Hnoop Hempty)))))).
  apply Hdead; [reflexivity|vm_compute; lia].
Defined.

(** The two failures on concrete vectors: both exceptions are caught by a
    handler for [std::out_of_range]. *)
Lemma both_errors_are_out_of_range_witness :
  at_ 2 vec_12 = Threw (out_of_range "index out of range") vec_12
  ∧ emplace moved_from_int true 3 0 4 vec_full
    = Threw (out_of_range "vector capacity exceeded") vec_full
  ∧ out_of_range "index out of range" = IndexOutOfRange
  ∧ out_of_range "vector capacity exceeded" = CapacityExceeded.
Proof.
  assert (Hat : at_ 2 vec_12 = Threw (out_of_range "index out of range") vec_12)
    by reflexivity.
  assert (Hemplace : emplace moved_from_int true 3 0 4 vec_full
                     = Threw (out_of_range "vector capacity exceeded") vec_full)
    by reflexivity.
  destruct (both_errors_are_out_of_range moved_from_int true 3) as (Hi & Hc & _).
  exact (conj Hat (conj Hemplace
           (conj (Hi _ _ _ _ Hat) (Hc _ _ _ _ _ Hemplace)))).
Defined.

(** C4.  On a vector holding 1, 2, 3, 4, 5 whose element type has a
    destructor of its own and no default constructor,
    [erase(begin() + 1, begin() + 3)] moves 4 and 5 into slots 1 and 2 and
    then runs the destructor on slots 1 to 4: the vector reports size 3, but
    of the contents 1, 4, 5 it should have only the first element is left. *)
Theorem erase_range_destroys_shifted_elements :
  erase_range moved_from_int false false false 1 3 vec_12345
  = Returned 1 {| storage_ := [Some 1; None; None; None; None];
                  size_ := 3; max_size_ := 5 |}
  ∧ elements {| storage_ := [Some 1; None; None; None; None];
                size_ := 3; max_size_ := 5 |}
    ≠ [Some 1; Some 4; Some 5].
Proof. split; [reflexivity|discriminate]. Qed.

(** The same call on a [vector<int, 5>]: the contents become 1, 4, 5. *)
Lemma erase_range_int_scenario :
  ∃ v', erase_range moved_from_int true true true 1 3 vec_12345 = Returned 1 v'
    ∧ size v' = 3
    ∧ elements v' = [Some 1; Some 4; Some 5].
Proof. eexists. split_and!; reflexivity. Qed.

(** C7, as stated, fails for a move assignment of a vector to itself: the
    source, a [vector<int, 2>] holding 1, 2 at address 0, keeps its size. *)
Lemma self_move_assignment_keeps_source :
  let h : gmap nat vector := {[ 0 := vec_12_small ]} in
  ¬ (∀ h', move_assignment moved_from_int true true 2 0 0 h = Returned tt h' →
           size <$> h' !! 0 = Some 0).
Proof.
  intros h Hall. specialize (Hall h eq_refl).
  unfold h in Hall. rewrite lookup_singleton_eq in Hall. discriminate.
Qed.

(** * Further properties of the class *)

(** ** Liveness through the algorithms *)

Section liveness_facts.

Context {T : Type}.
Variable moved_from : T → T.
Variable trivially_copyable : bool.
Implicit Types (st : list (slot T)) (x : T).

Lemma move_assign_live st d s x :
  load st s = Some x → d < length st →
  trivially_copyable = true ∨ is_Some (load st d) →
  ∃ st', move_assign moved_from trivially_copyable d s st = Some st'
    ∧ length st' = length st
    ∧ (∀ i, is_Some (load st i) → is_Some (load st' i)).
Proof.
  intros Hx Hd Hok. eexists. split; [by apply move_assign_Some|].
  assert (Hs : s < length st) by (apply load_lt; by exists x).
  split; [by rewrite !length_insert|].
  intros i Hi. unfold load.
  destruct (decide (i = s)) as [->|Hns].
  - rewrite list_lookup_insert_eq by (by rewrite length_insert). by eexists.
  - rewrite list_lookup_insert_ne by done.
    destruct (decide (i = d)) as [->|Hnd].
    + rewrite list_lookup_insert_eq by done. by eexists.
    + by rewrite list_lookup_insert_ne.
Qed.

(** [std::move] towards the front, or onto the same range, never fails on
    live objects and leaves every live slot live. *)
Lemma move_loop_live n : ∀ first d_first st,
  d_first ≤ first →
  (∀ j, j < n → is_Some (load st (first + j))) →
  trivially_copyable = true ∨ (∀ j, j < n → is_Some (load st (d_first + j))) →
  ∃ st', move_loop moved_from trivially_copyable n first d_first st = Some st'
    ∧ length st' = length st
    ∧ (∀ i, is_Some (load st i) → is_Some (load st' i)).
Proof.
  induction n as [|n IH]; intros first d st Hd Hlive Htarget.
  - by exists st.
  - destruct (Hlive 0) as [x Hx]; [lia|]. rewrite Nat.add_0_r in Hx.
    assert (Hs : first < length st) by (apply load_lt; by exists x).
    destruct (move_assign_live st d first x) as (st1 & Hst1 & Hlen1 & Hlive1);
      [done|lia| |].
    { destruct Htarget as [?|Htarget]; [by left|right].
      rewrite <- (Nat.add_0_r d). apply Htarget. lia. }
    destruct (IH (S first) (S d) st1) as (st' & Hrun & Hlen' & Hlive').
    + lia.
    + intros j Hj. apply Hlive1.
      replace (S first + j) with (first + S j) by lia. apply Hlive. lia.
    + destruct Htarget as [?|Htarget]; [by left|right].
      intros j Hj. apply Hlive1.
      replace (S d + j) with (d + S j) by lia. apply Htarget. lia.
    + exists st'. simpl. rewrite Hst1. simpl.
      split; [done|]. split; [congruence|]. auto.
Qed.

End liveness_facts.

(** ** More on the modifiers *)

Section modifier_facts.

Context {T : Type}.
Variable moved_from : T → T.
Variable trivially_copyable : bool.
Variable trivially_destructible default_constructible : bool.
Variable max_elements : nat.
Implicit Types (v : @vector T) (x : T).

Lemma wf_bounded N v : wf N v → bounded N v.
Proof. intros (? & ? & ? & _). by split_and!. Qed.

Lemma pop_back_wf N v : wf N v → wf N (pop_back trivially_destructible v).
Proof.
  intros Hwf. pose proof Hwf as (_ & _ & _ & Hall).
  destruct (pop_back_bounded trivially_destructible N v (wf_bounded _ _ Hwf))
    as (? & ? & ?).
  split_and!; [done..|].
  rewrite pop_back_elements. by apply Forall_take.
Qed.

(** What [erase(pos)] does at a position that denotes an element. *)
Lemma erase_spec pos v :
  wf max_elements v → pos < size_ v →
  ∃ v', erase moved_from trivially_copyable trivially_destructible pos v = Returned pos v'
    ∧ wf max_elements v'
    ∧ size_ v' = size_ v - 1
    ∧ elements v' = take pos (elements v) ++ drop (S pos) (elements v).
Proof.
  intros Hwf Hpos. pose proof Hwf as (Hlen & Hsize & Hmax & Hall).
  destruct (move_loop_shift moved_from trivially_copyable (size_ v - S pos) (S pos) pos (storage_ v))
    as (st' & Hrun & Hlen' & Hlow & Hmid); [lia|lia| | |].
  { intros j Hj. apply (wf_live max_elements); [done|lia]. }
  { right. intros j Hj. apply (wf_live max_elements); [done|lia]. }
  unfold erase, distance, cbegin, begin, end_, data.
  rewrite decide_True by lia. rewrite Nat.sub_0_r.
  rewrite decide_True by done.
  unfold move. rewrite decide_True by lia.
  replace (0 + pos + 1) with (S pos) by lia.
  change (0 + size_ v) with (size_ v). change (0 + pos) with pos.
  rewrite Hrun.
  eexists. split; [reflexivity|].
  assert (Helems : elements (pop_back trivially_destructible (set_storage st' v))
                   = take pos (elements v) ++ drop (S pos) (elements v)).
  { rewrite pop_back_elements. unfold elements; simpl.
    rewrite take_take.
    replace ((size_ v - 1) `min` size_ v) with (size_ v - 1) by lia.
    apply list_eq. intros i.
    destruct (decide (i < pos)) as [Hi|Hi].
    - rewrite lookup_take_lt by lia.
      rewrite lookup_app_l by (rewrite !length_take; lia).
      rewrite !lookup_take_lt by lia. by apply Hlow.
    - rewrite lookup_app_r by (rewrite !length_take; lia).
      rewrite !length_take.
      replace (pos `min` (size_ v `min` length (storage_ v))) with pos by lia.
      rewrite lookup_drop.
      destruct (decide (i < size_ v - 1)) as [Hlt|Hge].
      + rewrite !lookup_take_lt by lia.
        replace i with (pos + (i - pos)) at 1 by lia.
        by rewrite Hmid by lia.
      + rewrite !lookup_take_ge by lia. done. }
  assert (Hb : bounded max_elements (set_storage st' v))
    by (unfold bounded; simpl; split_and!; [congruence|done..]).
  destruct (pop_back_bounded trivially_destructible _ _ Hb) as (? & ? & ?).
  split_and!; [split_and!; [done..|]| |done].
  - rewrite Helems. apply Forall_app.
    split; [by apply Forall_take|by apply Forall_drop].
  - by rewrite pop_back_size.
Qed.

(** [erase(first, last)] on a range of the vector returns and leaves a
    well-formed vector when the loop over destructors is not entered or the
    destructor is trivial. *)
Lemma erase_range_wf first last v :
  wf max_elements v → first ≤ last → last ≤ size_ v →
  default_constructible = true ∨ trivially_destructible = true →
  ∃ v', erase_range moved_from trivially_copyable trivially_destructible default_constructible
          first last v = Returned first v'
    ∧ wf max_elements v'
    ∧ size_ v' = size_ v - (last - first).
Proof.
  intros Hwf Hfl Hls Htraits.
  pose proof Hwf as (Hlen & Hsize & Hmax & Hall).
  assert (Hmoved : ∃ st',
    (if decide (first < size_ v) then
       st ← move moved_from trivially_copyable (begin v + first + (last - first)) (end_ v)
              (begin v + first) (storage_ v);
       Some (if negb default_constructible
             then destroy_loop trivially_destructible
                    (end_ v - (begin v + first)) (begin v + first) st
             else st)
     else Some (storage_ v)) = Some st'
    ∧ length st' = max_elements
    ∧ (∀ i, is_Some (load (storage_ v) i) → is_Some (load st' i))).
  { destruct (decide (first < size_ v)) as [Hlt|Hge]; [|by exists (storage_ v)].
    destruct (move_loop_live moved_from trivially_copyable (size_ v - last) last first (storage_ v))
      as (st' & Hrun & Hlen' & Hlive); [done| | |].
    { intros j Hj. apply (wf_live max_elements); [done|lia]. }
    { right. intros j Hj. apply (wf_live max_elements); [done|lia]. }
    unfold move, begin, end_, data.
    replace (0 + first + (last - first)) with last by lia.
    rewrite decide_True by lia.
    change (0 + size_ v) with (size_ v). change (0 + first) with first.
    rewrite Hrun. simpl. eexists. split; [reflexivity|].
    destruct Htraits as [->|Htriv]; simpl; [split; [lia|done]|].
    rewrite destroy_loop_trivial by done.
    destruct (negb default_constructible); (split; [lia|done]). }
  destruct Hmoved as (st' & Hrun & Hlen' & Hlive).
  unfold erase_range. unfold distance at 1 2, cbegin, data.
  rewrite !decide_True by lia. rewrite Nat.sub_0_r.
  rewrite Hrun. rewrite decide_True by lia.
  eexists. split; [reflexivity|]. split; [|done].
  unfold wf; simpl. split_and!; [done|lia|done|].
  unfold elements; simpl. apply Forall_lookup_2. intros i s Hs.
  assert (Hi : i < size_ v - (last - first)).
  { apply lookup_lt_Some in Hs. rewrite length_take in Hs. lia. }
  rewrite lookup_take_lt in Hs by done.
  destruct (Hlive i) as [y Hy].
  { apply (wf_live max_elements); [done|lia]. }
  apply load_Some in Hy. rewrite Hy in Hs. injection Hs as <-. by eexists.
Qed.

(** ** Copying *)

(** Copying [n] elements of [other], from its slot [i] on, to the end of
    [this]. *)
Lemma copy_loop_spec n : ∀ i other this,
  wf max_elements this → size_ this + n ≤ max_elements →
  (∀ j, i ≤ j < i + n → is_Some (load (storage_ other) j)) →
  ∃ this',
    copy_loop moved_from trivially_copyable max_elements n i other this = Returned tt this'
    ∧ wf max_elements this'
    ∧ size_ this' = size_ this + n
    ∧ elements this' = elements this ++ take n (drop i (storage_ other)).
Proof.
  induction n as [|n IH]; intros i other this Hwf Hroom Hlive.
  - exists this. simpl. rewrite app_nil_r. split_and!; done || lia.
  - destruct (Hlive i) as [x Hx]; [lia|].
    cbn [copy_loop]. rewrite Hx. unfold bind, emplace_back.
    destruct (emplace_end_spec moved_from trivially_copyable max_elements x this)
      as (this1 & -> & Hwf1 & Hsize1 & Hel1); [done|lia|].
    destruct (IH (S i) other this1) as (this' & -> & Hwf' & Hsize' & Hel').
    + done.
    + lia.
    + intros j Hj. apply Hlive. lia.
    + exists this'. split_and!; [done|done|lia|].
      rewrite Hel', Hel1. apply load_Some in Hx.
      rewrite (drop_S _ _ _ Hx). simpl. by rewrite <- app_assoc.
Qed.

(** An empty destination becomes a copy of the source. *)
Lemma copy_from_spec other this :
  wf max_elements this → size_ this = 0 → wf max_elements other →
  ∃ this',
    copy_from moved_from trivially_copyable max_elements other this = Returned tt this'
    ∧ wf max_elements this'
    ∧ size_ this' = size_ other
    ∧ elements this' = elements other.
Proof.
  intros Hwf Hempty Hwfo.
  pose proof Hwfo as (Hlen & Hsize & Hmax & Hall).
  destruct (copy_loop_spec (size_ other) 0 other this)
    as (this' & Hrun & Hwf' & Hsize' & Hel'); [done|lia| |].
  { intros j Hj. apply (wf_live max_elements); [done|lia]. }
  unfold copy_from, bind. rewrite Hrun.
  assert (Hset : set_size (size_ other) this' = this').
  { destruct this'; unfold set_size; simpl in *. f_equal. lia. }
  rewrite Hset. exists this'. split_and!; [done|done|lia|].
  rewrite Hel'. unfold elements at 1. by rewrite Hempty.
Qed.

(** ** Which calls throw, and what they leave *)

Lemma emplace_from_threw pos a v e v' :
  emplace_from moved_from trivially_copyable max_elements pos a v = Threw e v' →
  e = CapacityExceeded ∧ v' = v ∧ max_elements ≤ size_ v.
Proof.
  unfold emplace_from. case_decide as Hfull.
  { intros [= <- <-]. by split_and!. }
  destruct (if decide (pos = cend v) then _ else _); [|done].
  by destruct (_ ≫= _).
Qed.

Lemma emplace_threw pos x v e v' :
  emplace moved_from trivially_copyable max_elements pos x v = Threw e v' →
  e = CapacityExceeded ∧ v' = v ∧ max_elements ≤ size_ v.
Proof. apply emplace_from_threw. Qed.

Lemma insert_range_loop_threw range : ∀ it v e v',
  insert_range_loop moved_from trivially_copyable max_elements it range v = Threw e v' →
  e = CapacityExceeded ∧ max_elements ≤ size_ v'.
Proof.
  induction range as [|x range IH]; intros it v e v'; [done|].
  cbn [insert_range_loop]. unfold bind, insert.
  destruct (emplace _ _ _ _ _ _) as [it' v1|e1 v1| |] eqn:Hemplace; try done.
  - apply IH.
  - intros [= <- <-]. apply emplace_threw in Hemplace as (-> & -> & ?). done.
Qed.



Lemma discard_threw_inv {A} (m : vector → outcome vector A) v e v' :
  discard m v = Threw e v' → m v = Threw e v'.
Proof.
  unfold discard, bind, ret. destruct (m v); intros H; congruence.
Qed.

(** The only exceptions: [at] past the end, and an insertion that found
    the vector full. *)
Lemma run_threw o v e v' :
  run moved_from trivially_copyable trivially_destructible default_constructible max_elements o v
  = Threw e v' →
  (∃ pos, o = op_at pos ∧ e = IndexOutOfRange ∧ v' = v ∧ size_ v ≤ pos)
  ∨ (is_insertion o = true ∧ e = CapacityExceeded ∧ max_elements ≤ size_ v').
Proof.
  destruct o; cbn [run is_insertion]; try discriminate;
    intros Hrun%discard_threw_inv.
  - left. exists pos. unfold at_ in Hrun.
    case_decide; [|done]. by injection Hrun as <- <-.
  - right. apply emplace_threw in Hrun as (-> & -> & ?). done.
  - right. unfold insert_count in Hrun. destruct (distance _ _); [|done].
    rewrite insert_count_loop_replicate in Hrun.
    by apply insert_range_loop_threw in Hrun as (-> & ?).
  - right. unfold insert_range in Hrun. destruct (distance _ _); [|done].
    by apply insert_range_loop_threw in Hrun as (-> & ?).
  - right. unfold insert_list, insert_range in Hrun.
    destruct (distance _ _); [|done].
    by apply insert_range_loop_threw in Hrun as (-> & ?).
  - right. apply emplace_threw in Hrun as (-> & -> & ?). done.
  - unfold erase in Hrun. destruct (distance _ _); [|done].
    case_decide; [|done]. by destruct (move _ _ _ _ _).
  - unfold erase_range in Hrun.
    do 2 (destruct (distance _ _); [|done]).
    destruct (if decide (_ < _) then _ else _); [|done].
    by destruct (decide (_ ≤ _)).
  - right. apply emplace_threw in Hrun as (-> & -> & ?). done.
  - right. apply emplace_threw in Hrun as (-> & -> & ?). done.
Qed.

(** ** No call within its preconditions goes wrong *)

Lemma precondition_position pos v : begin v ≤ pos ≤ end_ v → pos ≤ size_ v.
Proof. unfold begin, end_, data. lia. Qed.

Lemma insert_range_unfold pos range v :
  insert_range moved_from trivially_copyable max_elements pos range v
  = insert_range_loop moved_from trivially_copyable max_elements pos range v.
Proof.
  unfold insert_range, distance, cbegin, begin, data.
  rewrite decide_True by lia. f_equal. lia.
Qed.

Lemma insert_count_unfold pos count value v :
  insert_count moved_from trivially_copyable max_elements pos count (by_value value) v
  = insert_range_loop moved_from trivially_copyable max_elements pos (replicate count value) v.
Proof.
  unfold insert_count, distance, cbegin, begin, data.
  rewrite decide_True by lia. rewrite insert_count_loop_replicate.
  f_equal. lia.
Qed.





(** ** Well-formedness is preserved *)

(** The three ways a call of [emplace] at a position of the vector ends. *)
Lemma emplace_cases pos x v :
  wf max_elements v → pos ≤ size_ v →
  emplace moved_from trivially_copyable max_elements pos x v
  = Threw CapacityExceeded v
  ∨ (∃ v', emplace moved_from trivially_copyable max_elements pos x v
           = Returned pos v'
       ∧ wf max_elements v' ∧ size_ v' = size_ v + 1)
  ∨ emplace moved_from trivially_copyable max_elements pos x v = Undefined.
Proof.
  intros Hwf Hpos.
  destruct (decide (size_ v < max_elements)) as [Hroom|Hfull];
    [|left; apply emplace_full; lia].
  right.
  assert (Hdefined :
    pos = size_ v ∨ trivially_copyable = true
    ∨ is_Some (load (storage_ v) (size_ v)) →
    ∃ v', emplace moved_from trivially_copyable max_elements pos x v
          = Returned pos v'
      ∧ wf max_elements v' ∧ size_ v' = size_ v + 1).
  { intros Hok.
    destruct (emplace_spec moved_from trivially_copyable max_elements pos x v)
      as (v' & Hrun & Hwf' & Hsize & _); [done..|].
    by exists v'. }
  destruct (decide (pos = size_ v)) as [Hend|Hbefore]; [left; auto|].
  destruct trivially_copyable eqn:Htc; [left; auto|].
  destruct (load (storage_ v) (size_ v)) as [y|] eqn:Hslot.
  - left. apply Hdefined. right. right. by exists y.
  - right. apply emplace_from_undefined; [done|lia|done..].
Qed.

Lemma emplace_wf pos x v :
  wf max_elements v → pos ≤ size_ v →
  ensures (wf max_elements)
    (emplace moved_from trivially_copyable max_elements pos x v).
Proof.
  intros Hwf Hpos.
  destruct (emplace_cases pos x v) as [->|[(v' & -> & Hwf' & _)| ->]]; done.
Qed.

Lemma insert_range_loop_wf range : ∀ pos v,
  wf max_elements v → pos ≤ size_ v →
  ensures (wf max_elements)
    (insert_range_loop moved_from trivially_copyable max_elements pos range v).
Proof.
  induction range as [|x range IH]; intros pos v Hwf Hpos; [done|].
  cbn [insert_range_loop]. unfold bind, insert.
  destruct (emplace_cases pos x v) as [->|[(v' & -> & Hwf' & Hsize)| ->]];
    [done..| |done].
  apply IH; [done|lia].
Qed.

Lemma discard_ensures {A} (P : vector → Prop)
    (m : vector → outcome vector A) v :
  ensures P (m v) → ensures P (discard m v).
Proof.
  intros Hm. unfold discard. apply ensures_bind; [done|]. by intros.
Qed.

(** From a well-formed state, an operation called within its preconditions
    leaves a well-formed state, provided [erase(first, last)] does not run
    destructors on the elements it keeps. *)
Lemma run_wf o v :
  default_constructible = true ∨ trivially_destructible = true →
  wf max_elements v → precondition o v →
  ensures (wf max_elements)
    (run moved_from trivially_copyable trivially_destructible
       default_constructible max_elements o v).
Proof.
  intros Htraits Hwf Hpre.
  destruct o as [pos| |pos value|pos count value|pos range|pos il|pos x
                |pos|first lst|value|x| ]; cbn [run precondition] in *.
  - apply discard_ensures. unfold at_. by case_decide.
  - by apply clear_wf, wf_bounded.
  - apply discard_ensures, emplace_wf; [done|by apply precondition_position].
  - apply discard_ensures. rewrite insert_count_unfold.
    apply insert_range_loop_wf; [done|by apply precondition_position].
  - apply discard_ensures. rewrite insert_range_unfold.
    apply insert_range_loop_wf; [done|by apply precondition_position].
  - apply discard_ensures. unfold insert_list. rewrite insert_range_unfold.
    apply insert_range_loop_wf; [done|by apply precondition_position].
  - apply discard_ensures, emplace_wf; [done|by apply precondition_position].
  - destruct (erase_spec pos v)
      as (v' & Hrun & Hwf' & _); [done|unfold begin, end_, data in Hpre; lia|].
    apply discard_ensures. by rewrite Hrun.
  - destruct (erase_range_wf first lst v)
      as (v' & Hrun & Hwf' & _);
      [done|unfold begin, end_, data in Hpre; lia..|done|].
    apply discard_ensures. by rewrite Hrun.
  - apply discard_ensures, emplace_wf; [done|by unfold end_, data].
  - apply discard_ensures, emplace_wf; [done|by unfold end_, data].
  - by apply pop_back_wf.
Qed.

Lemma reachable_wf v :
  default_constructible = true ∨ trivially_destructible = true →
  reachable moved_from trivially_copyable trivially_destructible default_constructible
    max_elements v →
  wf max_elements v.
Proof.
  intros Htraits.
  induction 1 as
    [ | o v v' _ IH Hpre Hrun | o v e v' _ IH Hpre Hrun
    | other v' _ IHo Hrun | other v v' _ IHo _ IH Hrun
    | other v' other' _ IHo Hrun | other v' other' _ IHo Hrun
    | other v v' other' _ IHo _ IH Hrun | other v v' other' _ IHo _ IH Hrun ].
  - apply wf_default.
  - exact (ensures_returned _ _ _ _ (run_wf o v Htraits IH Hpre) Hrun).
  - exact (ensures_threw _ _ _ _ (run_wf o v Htraits IH Hpre) Hrun).
  - destruct (copy_from_spec other (default_vector max_elements))
      as (this' & Hr & Hwf' & _); [apply wf_default|done|done|].
    unfold copy_construct in Hrun. congruence.
  - destruct (copy_from_spec other (clear trivially_destructible v))
      as (this' & Hr & Hwf' & _);
      [by apply clear_wf, wf_bounded|apply clear_size|done|].
    unfold copy_assign_body in Hrun. congruence.
  - destruct (move_from_spec moved_from trivially_copyable trivially_destructible max_elements
                (default_vector max_elements) other)
      as (d' & s' & Hr & Hwfd & _ & _ & Hwfs & _);
      [apply wf_default|done|done|].
    unfold move_construct in Hrun. rewrite Hr in Hrun. simpl in Hrun.
    congruence.
  - destruct (move_from_spec moved_from trivially_copyable trivially_destructible max_elements
                (default_vector max_elements) other)
      as (d' & s' & Hr & Hwfd & _ & _ & Hwfs & _);
      [apply wf_default|done|done|].
    unfold move_construct in Hrun. rewrite Hr in Hrun. simpl in Hrun.
    congruence.
  - destruct (move_from_spec moved_from trivially_copyable trivially_destructible max_elements
                (clear trivially_destructible v) other)
      as (d' & s' & Hr & Hwfd & _ & _ & Hwfs & _);
      [by apply clear_wf, wf_bounded|apply clear_size|done|].
    unfold move_assign_body in Hrun. simpl in Hrun. rewrite Hr in Hrun.
    simpl in Hrun. congruence.
  - destruct (move_from_spec moved_from trivially_copyable trivially_destructible max_elements
                (clear trivially_destructible v) other)
      as (d' & s' & Hr & Hwfd & _ & _ & Hwfs & _);
      [by apply clear_wf, wf_bounded|apply clear_size|done|].
    unfold move_assign_body in Hrun. simpl in Hrun. rewrite Hr in Hrun.
    simpl in Hrun. congruence.
Qed.

End modifier_facts.

(** ** Iteration *)

Section iteration_facts.

Context {T : Type}.
Implicit Types (st : list (slot T)) (v : @vector T).

Lemma read_forward_spec n : ∀ it st,
  (∀ j, j < n → is_Some (load st (it + j))) →
  ∃ xs, read_forward n it st = Some xs
    ∧ Some <$> xs = take n (drop it st).
Proof.
  induction n as [|n IH]; intros it st Hlive.
  - by exists [].
  - destruct (Hlive 0) as [x Hx]; [lia|]. rewrite Nat.add_0_r in Hx.
    destruct (IH (S it) st) as (xs & Hrun & Hxs).
    { intros j Hj. replace (S it + j) with (it + S j) by lia.
      apply Hlive. lia. }
    exists (x :: xs). split.
    + cbn [read_forward]. by rewrite Hx, Hrun.
    + apply load_Some in Hx.
      rewrite (drop_S _ _ _ Hx). cbn [take]. by rewrite fmap_cons, Hxs.
Qed.

Lemma read_reverse_spec n : ∀ b st,
  n ≤ b → (∀ j, b - n ≤ j < b → is_Some (load st j)) →
  ∃ xs, read_reverse n {| base := b |} st = Some xs
    ∧ Some <$> xs = reverse (take n (drop (b - n) st)).
Proof.
  induction n as [|n IH]; intros b st Hb Hlive.
  - by exists [].
  - destruct b as [|b]; [lia|].
    destruct (Hlive b) as [x Hx]; [lia|].
    destruct (IH b st) as (xs & Hrun & Hxs); [lia| |].
    { intros j Hj. apply Hlive. lia. }
    exists (x :: xs). split.
    + cbn [read_reverse base]. by rewrite Hx, Hrun.
    + apply load_Some in Hx.
      replace (S b - S n) with (b - n) by lia.
      assert (Hat : drop (b - n) st !! n = Some (Some x)).
      { rewrite lookup_drop. replace (b - n + n) with b by lia. done. }
      rewrite (take_S_r _ _ _ Hat), reverse_snoc. by rewrite fmap_cons, Hxs.
Qed.

End iteration_facts.

(** * Further properties, stated *)

Section further_properties.

Context {T : Type}.
Variable moved_from : T → T.
Variable trivially_copyable : bool.
Variable trivially_destructible default_constructible : bool.
Variable max_elements : nat.
Implicit Types (v : @vector T) (x value : T).

Local Abbreviation clear' := (clear trivially_destructible).
Local Abbreviation pop_back' := (pop_back trivially_destructible).
Local Abbreviation erase' := (erase moved_from trivially_copyable trivially_destructible).
Local Abbreviation erase_range' :=
  (erase_range moved_from trivially_copyable trivially_destructible default_constructible).
Local Abbreviation run' :=
  (run moved_from trivially_copyable trivially_destructible default_constructible max_elements).


(** X2. [erase(pos)] at a position that denotes an element returns [pos];
    the element is gone, the elements after it have moved one slot to the
    left in their order, and the size is one less.  [erase(end())] changes
    nothing and returns [end()]. *)
Theorem erase_removes_element pos v :
  (wf max_elements v → begin v ≤ pos < end_ v →
   ∃ v', erase' pos v = Returned pos v'
     ∧ wf max_elements v'
     ∧ size v' = size v - 1
     ∧ elements v' = take pos (elements v) ++ drop (S pos) (elements v))
  ∧ erase' (end_ v) v = Returned (end_ v) v.
Proof.
  split.
  - intros Hwf Hpos. apply erase_spec; [done|].
    unfold begin, end_, data in Hpos. lia.
  - unfold erase, distance, cbegin, begin, end_, data.
    rewrite decide_True by lia. rewrite decide_False by lia.
    do 2 f_equal. lia.
Qed.


(** X4. For an element type with a destructor of its own and no default
    constructor, [erase(first, last)] on a non-empty range returns [first]
    with the size lowered by the length of the range, and no slot from
    [first] on holds an object any more, the kept elements included. *)
Theorem erase_range_destroys_kept_elements first lst v :
  trivially_destructible = false → default_constructible = false →
  wf max_elements v → first < lst → lst ≤ end_ v →
  ∃ v', erase_range' first lst v = Returned first v'
    ∧ size v' = size v - (lst - first)
    ∧ (∀ i, first ≤ i < size v' → elements v' !! i = Some None).
Proof.
  intros Htriv Hdef Hwf Hfl Hls. unfold end_, data in Hls.
  apply (erase_range_destroys_from_first _ _ _ _ max_elements); [done..|lia].
Qed.

(** X5. Copy construction from a vector returns, without an exception, a
    vector of the same size with the same elements in the same order. *)
Theorem copy_construct_copies other :
  wf max_elements other →
  ∃ v', copy_construct moved_from trivially_copyable max_elements other = Returned tt v'
    ∧ wf max_elements v'
    ∧ size v' = size other
    ∧ elements v' = elements other.
Proof.
  intros Hwf. unfold copy_construct.
  apply copy_from_spec; [apply wf_default|done|done].
Qed.

(** X6. Copy assignment between two different objects replaces the
    contents of the destination, whatever they were, by a copy of the
    source's elements and leaves the source as it was; copy assignment of
    an object to itself changes nothing. *)
Theorem copy_assignment_copies this other (h : gmap nat vector) :
  (∀ d s,
     this ≠ other → h !! this = Some d → h !! other = Some s →
     wf max_elements d → wf max_elements s →
     ∃ d', copy_assignment moved_from trivially_copyable trivially_destructible max_elements
             this other h
           = Returned tt (<[this := d']> h)
       ∧ wf max_elements d'
       ∧ size d' = size s ∧ elements d' = elements s
       ∧ <[this := d']> h !! other = Some s)
  ∧ copy_assignment moved_from trivially_copyable trivially_destructible max_elements this this h
    = Returned tt h.
Proof.
  split.
  - intros d s Hne Hd Hs Hwfd Hwfs. unfold copy_assignment, copy_assign_body.
    rewrite decide_True by done. rewrite Hd, Hs.
    destruct (copy_from_spec moved_from trivially_copyable max_elements s (clear' d))
      as (d' & -> & Hwf' & Hsize & Hel);
      [by apply clear_wf, wf_bounded|apply clear_size|done|].
    exists d'. split_and!; [done..|].
    by rewrite lookup_insert_ne.
  - unfold copy_assignment. by rewrite decide_False by auto.
Qed.

Lemma emplace_back_all_push_back_all args : ∀ v,
  emplace_back_all moved_from trivially_copyable max_elements args v
  = push_back_all moved_from trivially_copyable max_elements args v.
Proof.
  induction args as [|x args IH]; intros v; [done|].
  cbn [emplace_back_all push_back_all]. unfold bind, emplace_back, push_back.
  destruct (emplace _ _ _ _ _); auto.
Qed.

Lemma distance_begin_end v : distance (begin v) (end_ v) = Some (size_ v).
Proof.
  unfold distance, begin, end_, data. rewrite decide_True by lia.
  f_equal. lia.
Qed.

(** X7. The constructor from a pack of at most [max_elements] values
    returns, without an exception, a vector that holds exactly these values
    in the order given; a longer pack is rejected. *)
Theorem construct_from_holds_arguments (args : list T) :
  (length args ≤ max_elements →
   ∃ v', construct_from moved_from trivially_copyable max_elements args = Some (Returned tt v')
     ∧ wf max_elements v'
     ∧ size v' = length args
     ∧ elements v' = Some <$> args)
  ∧ (max_elements < length args →
     construct_from moved_from trivially_copyable max_elements args = None).
Proof.
  unfold construct_from. split; intros Hlen.
  - rewrite decide_True by done. rewrite emplace_back_all_push_back_all.
    destruct (push_back_all_spec moved_from trivially_copyable max_elements args
                (default_vector max_elements))
      as (v' & Hrun & Hwf' & Hsize & Hel); [apply wf_default|].
    simpl in Hrun, Hsize, Hel. rewrite decide_True in Hrun by done.
    rewrite Nat.sub_0_r in Hsize, Hel. rewrite take_ge in Hel by done.
    exists v'. split_and!; [by rewrite Hrun|done|unfold size; lia|done].
  - by rewrite decide_False by lia.
Qed.

(** X8. Below the capacity, at [end()] or for a trivially copyable element
    type, [insert(pos, value)] at a position of the vector, where [value]
    refers to an object outside the vector or to one of its elements,
    followed by [erase] at the position the insertion returned gives back
    the elements and the size the vector had. *)
Theorem insert_then_erase_restores pos (a : argument) v :
  wf max_elements v → size v < max_elements → begin v ≤ pos ≤ end_ v →
  pos = end_ v ∨ trivially_copyable = true →
  valid_argument trivially_copyable pos a v →
  ∃ v1 v2,
    insert_from moved_from trivially_copyable max_elements pos a v
    = Returned pos v1
    ∧ erase' pos v1 = Returned pos v2
    ∧ size v2 = size v
    ∧ elements v2 = elements v.
Proof.
  intros Hwf Hroom Hpos%precondition_position Hok Harg.
  unfold insert_from, size in *.
  destruct (emplace_from_spec moved_from trivially_copyable max_elements pos a v)
    as (x & v1 & Hrun1 & Hwf1 & Hsize1 & Hel1 & _); [done..| |done|].
  { destruct Hok as [->|?]; [by left|by right; left]. }
  destruct (erase_spec moved_from trivially_copyable trivially_destructible max_elements pos v1)
    as (v2 & Hrun2 & _ & Hsize2 & Hel2); [done|lia|].
  exists v1, v2. split_and!; [done|done|lia|].
  pose proof (length_elements _ _ Hwf) as Hlen.
  assert (Hlt : length (take pos (elements v)) = pos)
    by (rewrite length_take; lia).
  rewrite Hel2, Hel1.
  rewrite take_app_length' by done.
  rewrite cons_middle, app_assoc.
  rewrite drop_app_length' by (rewrite length_app; simpl; lia).
  apply take_drop.
Qed.

(** X9. Below the capacity, after [push_back(value)] the reference
    [back()] is the one [push_back] returned and denotes [value], and a
    [pop_back()] then gives back the elements and the size the vector
    had. *)
Theorem push_back_then_back_and_pop_back value v :
  wf max_elements v → size v < max_size v →
  ∃ r v1,
    push_back moved_from trivially_copyable max_elements value v = Returned r v1
    ∧ back v1 = Some r
    ∧ deref v1 r = Some value
    ∧ size (pop_back' v1) = size v
    ∧ elements (pop_back' v1) = elements v.
Proof.
  intros Hwf Hroom. pose proof Hwf as (_ & _ & Hmax & _).
  unfold size, max_size in *. rewrite Hmax in Hroom.
  destruct (emplace_end_spec moved_from trivially_copyable max_elements value v)
    as (v1 & Hrun & Hwf1 & Hsize1 & Hel1); [done..|].
  pose proof (length_elements _ _ Hwf) as Hlen.
  exists (size_ v), v1. split_and!.
  - exact Hrun.
  - unfold back, ptr_at. rewrite decide_True by lia. f_equal. lia.
  - apply load_Some.
    assert (Hat : elements v1 !! size_ v = Some (Some value)).
    { rewrite Hel1. rewrite lookup_app_r by lia.
      by rewrite Hlen, Nat.sub_diag. }
    unfold elements in Hat. by rewrite lookup_take_lt in Hat by lia.
  - rewrite pop_back_size. lia.
  - rewrite pop_back_elements, Hel1, Hsize1.
    replace (size_ v + 1 - 1) with (length (elements v)) by lia.
    by rewrite take_app_length.
Qed.


(** X11. For an element type that is default-constructible or trivially
    destructible, in every state reachable from a
    default-constructed vector the first [size()] slots of the storage hold
    objects, the storage has [max_elements] slots and the size is at most
    [max_elements]. *)
Theorem reachable_states_well_formed v :
  default_constructible = true ∨ trivially_destructible = true →
  reachable moved_from trivially_copyable trivially_destructible default_constructible
    max_elements v →
  wf max_elements v
  ∧ ∀ i, i < size v → is_Some (deref v (subscript i v)).
Proof.
  intros Htraits Hreach.
  pose proof (reachable_wf _ _ _ _ _ v Htraits Hreach) as Hwf.
  split; [done|]. intros i Hi. by apply (wf_live max_elements).
Qed.

(** X12. The public operations throw in two cases only: [at(pos)] with
    [pos >= size()], which throws IndexOutOfRange and leaves the vector as
    it was, and an insertion, which throws CapacityExceeded and leaves a
    vector whose size has reached the capacity.  [clear], [erase] and
    [pop_back] never throw. *)
Theorem exceptions_are_at_or_full_insertion o v e v' :
  run' o v = Threw e v' →
  (∃ pos, o = op_at pos ∧ e = IndexOutOfRange ∧ v' = v ∧ size v ≤ pos)
  ∨ (is_insertion o = true ∧ e = CapacityExceeded ∧ max_elements ≤ size v').
Proof. apply run_threw. Qed.

(** X13. A loop from [begin()] to [end()] reads the live elements in
    order, and a loop from [rbegin()] to [rend()] reads them in reverse
    order. *)
Theorem iteration_visits_elements v :
  wf max_elements v →
  ∃ xs, range_for v = Some xs
    ∧ Some <$> xs = elements v
    ∧ reverse_for v = Some (reverse xs).
Proof.
  intros Hwf. pose proof Hwf as (Hlen & Hsize & _).
  destruct (read_forward_spec (size_ v) (begin v) (storage_ v))
    as (xs & Hfwd & Hxs).
  { intros j Hj. apply (wf_live max_elements); [done|]. unfold begin, data. lia. }
  destruct (read_reverse_spec (size_ v) (end_ v) (storage_ v))
    as (ys & Hrev & Hys).
  { unfold end_, data. lia. }
  { intros j Hj. apply (wf_live max_elements); [done|].
    unfold end_, data in Hj. lia. }
  assert (Hbase : end_ v - size_ v = 0) by (unfold end_, data; lia).
  rewrite Hbase in Hys. unfold begin, data in Hxs. rewrite drop_0 in Hxs, Hys.
  exists xs. split_and!.
  - unfold range_for. rewrite distance_begin_end. exact Hfwd.
  - exact Hxs.
  - unfold reverse_for.
    change (distance (base (rend v)) (base (rbegin v)))
      with (distance (begin v) (end_ v)).
    rewrite distance_begin_end. simpl. unfold rbegin. rewrite Hrev.
    f_equal. apply (inj (fmap Some)).
    by rewrite Hys, fmap_reverse, Hxs.
Qed.

(** X16. On a vector with [i < size()], [at(i)] returns the reference the
    subscript operator gives, which denotes the [i]-th live element;
    [front()] denotes the first live element and [back()] the last. *)
Theorem element_access_agrees i v :
  wf max_elements v → i < size v →
  at_ i v = Returned (subscript i v) v
  ∧ (∃ x, deref v (subscript i v) = Some x ∧ elements v !! i = Some (Some x))
  ∧ (∃ x, deref v (front v) = Some x ∧ head (elements v) = Some (Some x))
  ∧ (∃ p x, back v = Some p ∧ deref v p = Some x
       ∧ last (elements v) = Some (Some x)).
Proof.
  intros Hwf Hi. unfold size in Hi.
  pose proof (length_elements _ _ Hwf) as Hlen.
  assert (Hget : ∀ j, j < size_ v →
            ∃ x, deref v j = Some x ∧ elements v !! j = Some (Some x)).
  { intros j Hj. destruct (wf_live max_elements v j Hwf Hj) as [x Hx].
    exists x. split; [done|]. unfold elements.
    rewrite lookup_take_lt by done. by apply load_Some. }
  split_and!.
  - unfold at_, subscript. by rewrite decide_False by lia.
  - apply Hget. done.
  - destruct (Hget 0) as (x & Hd & He); [lia|]. exists x. split; [done|].
    by rewrite head_lookup.
  - destruct (Hget (size_ v - 1)) as (x & Hd & He); [lia|].
    exists (size_ v - 1), x. unfold back, ptr_at.
    rewrite decide_True by lia. split_and!; [done..|].
    rewrite last_lookup, Hlen.
    replace (pred (size_ v)) with (size_ v - 1) by lia. done.
Qed.

(** X17. After [clear()] on a vector whose first [size()] slots hold
    objects, a run of at most [max_elements] [push_back] calls returns and
    the vector holds exactly the values pushed, in order. *)
Theorem refill_after_clear (values : list T) v :
  wf max_elements v → length values ≤ max_elements →
  ∃ v', push_back_all moved_from trivially_copyable max_elements values (clear' v) = Returned tt v'
    ∧ wf max_elements v'
    ∧ size v' = length values
    ∧ elements v' = Some <$> values.
Proof.
  intros Hwf Hlen.
  destruct (push_back_all_spec moved_from trivially_copyable max_elements values (clear' v))
    as (v' & Hrun & Hwf' & Hsize & Hel); [by apply clear_wf, wf_bounded|].
  unfold elements at 2 in Hel. rewrite clear_size in Hrun, Hsize, Hel.
  simpl in Hrun, Hsize, Hel. rewrite decide_True in Hrun by done.
  rewrite Nat.sub_0_r in Hsize, Hel. rewrite take_ge in Hel by done.
  exists v'. split_and!; [done|done|unfold size; lia|done].
Qed.

(** X18. For a [value] that refers to an object outside the vector, in
    every state and at every position, [insert(pos, count, value)] does
    what [insert(pos, first, last)] does on a range of [count] copies of
    [value]: same result, same final state, same exception, and undefined
    in the same cases. *)
Theorem insert_count_is_insert_range pos count value v :
  insert_count moved_from trivially_copyable max_elements pos count
    (by_value value) v
  = insert_range moved_from trivially_copyable max_elements pos
      (replicate count value) v.
Proof. by rewrite insert_count_unfold, insert_range_unfold. Qed.

Lemma insert_range_loop_at_end values : ∀ v,
  wf max_elements v →
  discard (insert_range_loop moved_from trivially_copyable max_elements (size_ v) values) v
  = push_back_all moved_from trivially_copyable max_elements values v.
Proof.
  induction values as [|x values IH]; intros v Hwf; [done|].
  cbn [insert_range_loop push_back_all].
  unfold discard, bind, insert, push_back in *.
  change (end_ v) with (size_ v).
  destruct (decide (size_ v < max_elements)) as [Hroom|Hfull].
  - destruct (emplace_spec moved_from trivially_copyable max_elements (size_ v) x v)
      as (v1 & -> & Hwf1 & Hsize1 & _); [done|done|done|by left|].
    rewrite <- Hsize1. by apply IH.
  - by rewrite emplace_full by lia.
Qed.

(** X19. Inserting a list of values at [end()] has the effect of pushing
    them back one after the other: the same final state, and the same
    exception when they do not all fit. *)
Theorem insert_at_end_is_push_back_all (values : list T) v :
  wf max_elements v →
  discard (insert_list moved_from trivially_copyable max_elements (end_ v) values) v
  = push_back_all moved_from trivially_copyable max_elements values v.
Proof.
  intros Hwf. unfold insert_list.
  rewrite <- (insert_range_loop_at_end values v Hwf).
  unfold discard, bind. by rewrite insert_range_unfold.
Qed.

(** X20. On a non-empty vector, [erase(end() - 1)] leaves the same size
    and the same live elements as [pop_back()]. *)
Theorem erase_last_is_pop_back v :
  wf max_elements v → 0 < size v →
  ∃ v', erase' (end_ v - 1) v = Returned (end_ v - 1) v'
    ∧ size v' = size (pop_back' v)
    ∧ elements v' = elements (pop_back' v).
Proof.
  intros Hwf Hpos. unfold size, end_, data in *. simpl.
  destruct (erase_spec moved_from trivially_copyable trivially_destructible max_elements
              (size_ v - 1) v) as (v' & Hrun & _ & Hsize & Hel); [done|lia|].
  pose proof (length_elements _ _ Hwf) as Hlen.
  exists v'. split_and!; [done| |].
  - by rewrite pop_back_size.
  - rewrite pop_back_elements, Hel.
    rewrite drop_ge by lia. by rewrite app_nil_r.
Qed.

(** X21. Below the capacity, at [end()] or for a trivially copyable
    element type, [emplace(pos, args...)] with arguments outside the vector,
    at a position [pos] in [begin() .. end()], returns [pos]; the vector
    then holds the elements
    that were before [pos], the new element, and the elements that were
    from [pos] on, in their order, each one slot further right; the live
    count has grown by exactly 1. *)
Theorem emplace_shifts_and_constructs pos x v :
  wf max_elements v → size v < max_elements → begin v ≤ pos ≤ end_ v →
  pos = end_ v ∨ trivially_copyable = true →
  ∃ v', emplace moved_from trivially_copyable max_elements pos x v
        = Returned pos v'
    ∧ size v' = size v + 1
    ∧ elements v' = take pos (elements v) ++ Some x :: drop pos (elements v)
    ∧ (∀ i, i < pos → elements v' !! i = elements v !! i)
    ∧ deref v' pos = Some x
    ∧ (∀ i, pos ≤ i < size v → elements v' !! (i + 1) = elements v !! i).
Proof.
  intros Hwf Hroom [_ Hpos] Hok. unfold end_, data in Hpos, Hok.
  simpl in Hpos, Hok.
  destruct (emplace_spec moved_from trivially_copyable max_elements pos x v)
    as (v' & Hrun & Hwf' & Hsize & Hel); [done|done|done| |].
  { destruct Hok as [->|?]; [by left|by right; left]. }
  pose proof (length_elements _ _ Hwf) as Hlen.
  assert (Hlt : length (take pos (elements v)) = pos)
    by (rewrite length_take; lia).
  exists v'. split_and!; [done|done|done| | |].
  - intros i Hi. rewrite Hel.
    rewrite lookup_app_l by lia. by rewrite lookup_take_lt.
  - assert (Hat : elements v' !! pos = Some (Some x)).
    { rewrite Hel. rewrite lookup_app_r by lia. by rewrite Hlt, Nat.sub_diag. }
    unfold elements in Hat. rewrite lookup_take_lt in Hat by lia.
    by apply load_Some.
  - intros i Hi. rewrite Hel.
    rewrite lookup_app_r by lia. rewrite Hlt.
    replace (i + 1 - pos) with (S (i - pos)) by lia. simpl.
    rewrite lookup_drop. f_equal. lia.
Qed.

(** X22. At [end()], or for a trivially copyable element type, a
    multi-element insertion ([count] copies, a range, an initializer list)
    of values outside the vector at a position of the vector puts the
    values, in their order,
    between the elements before [pos] and the elements from [pos] on, which
    keep their order.  When the values do not all fit, the call throws
    CapacityExceeded after it has inserted exactly the first
    [max_elements - size()] of them, and the vector holds [max_elements]
    elements. *)
Theorem multi_insert_fits_then_fails pos v :
  wf max_elements v → begin v ≤ pos ≤ end_ v →
  pos = end_ v ∨ trivially_copyable = true →
  let inserted (range : list T) (o : outcome vector nat) :=
    (size v + length range ≤ max_elements →
     ∃ v', o = Returned (pos + length range) v'
       ∧ size v' = size v + length range
       ∧ elements v'
         = take pos (elements v) ++ (Some <$> range) ++ drop pos (elements v))
    ∧ (max_elements < size v + length range →
       ∃ v', o = Threw CapacityExceeded v'
         ∧ size v' = max_elements
         ∧ elements v'
           = take pos (elements v)
             ++ (Some <$> take (max_elements - size v) range)
             ++ drop pos (elements v)) in
  (∀ count value,
     inserted (replicate count value)
       (insert_count moved_from trivially_copyable max_elements pos count
          (by_value value) v))
  ∧ (∀ range, inserted range (insert_range moved_from trivially_copyable max_elements pos range v))
  ∧ (∀ il, inserted il (insert_list moved_from trivially_copyable max_elements pos il v)).
Proof.
  intros Hwf [_ Hpos] Hok. unfold end_, data in Hpos, Hok.
  simpl in Hpos, Hok.
  assert (Hloop : ∀ range,
    (size v + length range ≤ max_elements →
     ∃ v', insert_range_loop moved_from trivially_copyable max_elements pos range v
           = Returned (pos + length range) v'
       ∧ size v' = size v + length range
       ∧ elements v'
         = take pos (elements v) ++ (Some <$> range) ++ drop pos (elements v))
    ∧ (max_elements < size v + length range →
       ∃ v', insert_range_loop moved_from trivially_copyable max_elements pos range v
             = Threw CapacityExceeded v'
         ∧ size v' = max_elements
         ∧ elements v'
           = take pos (elements v)
             ++ (Some <$> take (max_elements - size v) range)
             ++ drop pos (elements v))).
  { intros range. unfold size. pose proof Hwf as (_ & ? & _).
    destruct (insert_range_loop_spec moved_from trivially_copyable max_elements range pos v)
      as (v' & Hrun & _ & Hsize & Hel); [done..|].
    split; intros Hfit; exists v'.
    - rewrite decide_True in Hrun by done.
      rewrite (take_ge range) in Hel by lia. split_and!; [done|lia|done].
    - rewrite decide_False in Hrun by lia. split_and!; [done|lia|done]. }
  assert (Hdist : distance (cbegin v) pos = Some pos).
  { unfold distance, cbegin, data. rewrite decide_True by lia.
    f_equal. lia. }
  intros inserted. subst inserted. cbv beta. split_and!.
  - intros count value. unfold insert_count. rewrite Hdist.
    rewrite insert_count_loop_replicate. apply Hloop.
  - intros range. unfold insert_range. rewrite Hdist. apply Hloop.
  - intros il. unfold insert_list, insert_range. rewrite Hdist. apply Hloop.
Qed.

(** X23. [insert(pos, value)] reads the object [value] refers to after it
    has shifted the elements.  Below the capacity, for a trivially copyable
    element type, a [value] that refers to the element at index [p] inserts
    that element when [p] is before [pos], and the element at index [p - 1]
    when [p] is after [pos]: the element the reference denoted at the call
    has moved one slot to the right by then. *)
Theorem insert_reads_reference_after_shift pos p v :
  wf max_elements v → size v < max_elements → begin v ≤ pos ≤ end_ v →
  trivially_copyable = true → p < size v →
  ∃ x v',
    insert_from moved_from trivially_copyable max_elements pos (element_at p) v
    = Returned pos v'
    ∧ size v' = size v + 1
    ∧ elements v' = take pos (elements v) ++ Some x :: drop pos (elements v)
    ∧ (p < pos → elements v !! p = Some (Some x))
    ∧ (pos < p → elements v !! (p - 1) = Some (Some x)).
Proof.
  intros Hwf Hroom Hpos%precondition_position Htc Hp.
  unfold insert_from, size in *.
  destruct (emplace_from_spec moved_from trivially_copyable max_elements pos
              (element_at p) v)
    as (x & v' & Hrun & _ & Hsize & Hel & _ & Hreference);
    [done|done|done|by right; left|by split| ].
  destruct (Hreference p eq_refl) as [Hbefore Hafter].
  exists x, v'. split_and!; [done..| |].
  - intros Hlt. unfold elements. rewrite lookup_take_lt by lia.
    by apply load_Some, Hbefore.
  - intros Hlt. unfold elements. rewrite lookup_take_lt by lia.
    by apply load_Some, Hafter.
Qed.

End further_properties.

(** ** The further properties on concrete vectors *)


(** [erase(begin())] on a vector holding 1, 2, 3, 4, 5. *)
Lemma erase_removes_element_witness :
  wf 5 vec_12345 ∧ begin vec_12345 ≤ 0 < end_ vec_12345
  ∧ ∃ v', erase moved_from_int true true 0 vec_12345 = Returned 0 v'
      ∧ wf 5 v'
      ∧ size v' = 4
      ∧ elements v' = [Some 2; Some 3; Some 4; Some 5].
Proof.
  assert (Hwf : wf 5 vec_12345) by wf_by_computation.
  assert (Hpos : begin vec_12345 ≤ 0 < end_ vec_12345) by (vm_compute; lia).
  refine (conj Hwf (conj Hpos _)).
  destruct (erase_removes_element moved_from_int true true 5 0 vec_12345)
    as (Herase & _).
  exact (Herase Hwf Hpos).
Defined.


(** The same call when the element type has a destructor of its own and
    no default constructor. *)
Lemma erase_range_destroys_kept_elements_witness :
  false = false ∧ wf 5 vec_12345 ∧ 1 < 3 ∧ 3 ≤ end_ vec_12345
  ∧ ∃ v', erase_range moved_from_int false false false 1 3 vec_12345 = Returned 1 v'
      ∧ size v' = 3
      ∧ (∀ i, 1 ≤ i < size v' → elements v' !! i = Some None).
Proof.
  assert (Hno : false = false) by reflexivity.
  assert (Hwf : wf 5 vec_12345) by wf_by_computation.
  assert (Hfl : 1 < 3) by lia.
  assert (Hle : 3 ≤ end_ vec_12345) by (vm_compute; lia).
  exact (conj Hno (conj Hwf (conj Hfl (conj Hle
           (erase_range_destroys_kept_elements moved_from_int false false false 5 1 3
              vec_12345 Hno Hno Hwf Hfl Hle))))).
Defined.

(** A copy of a [vector<int, 5>] holding 1, 2. *)
Lemma copy_construct_copies_witness :
  wf 5 vec_12
  ∧ ∃ v', copy_construct moved_from_int true 5 vec_12 = Returned tt v'
      ∧ wf 5 v'
      ∧ size v' = 2
      ∧ elements v' = [Some 1; Some 2].
Proof.
  assert (Hwf : wf 5 vec_12) by wf_by_computation.
  exact (conj Hwf (copy_construct_copies moved_from_int true 5 vec_12 Hwf)).
Defined.

(** Copy assignment of a vector holding 1, 2 to a vector holding
    1, 2, 3, 4, 5. *)
Lemma copy_assignment_copies_witness :
  let h : gmap nat (@vector nat) := {[ 0 := vec_12345; 1 := vec_12 ]} in
  0 ≠ 1 ∧ h !! 0 = Some vec_12345 ∧ h !! 1 = Some vec_12
  ∧ wf 5 vec_12345 ∧ wf 5 vec_12
  ∧ ∃ d', copy_assignment moved_from_int true true 5 0 1 h
          = Returned tt (<[0 := d']> h)
      ∧ wf 5 d'
      ∧ size d' = 2 ∧ elements d' = [Some 1; Some 2]
      ∧ <[0 := d']> h !! 1 = Some vec_12.
Proof.
  intros h.
  assert (Hne : 0 ≠ 1) by lia.
  assert (Hd : h !! 0 = Some vec_12345) by reflexivity.
  assert (Hs : h !! 1 = Some vec_12) by reflexivity.
  assert (Hwfd : wf 5 vec_12345) by wf_by_computation.
  assert (Hwfs : wf 5 vec_12) by wf_by_computation.
  destruct (copy_assignment_copies moved_from_int true true 5 0 1 h) as (Hcopy & _).
  exact (conj Hne (conj Hd (conj Hs (conj Hwfd (conj Hwfs
           (Hcopy _ _ Hne Hd Hs Hwfd Hwfs)))))).
Defined.

(** [cesa::vector<int, 5>(1, 2, 3)] *)
Lemma construct_from_holds_arguments_witness :
  length [1; 2; 3] ≤ 5
  ∧ ∃ v', construct_from moved_from_int true 5 [1; 2; 3] = Some (Returned tt v')
      ∧ wf 5 v'
      ∧ size v' = 3
      ∧ elements v' = [Some 1; Some 2; Some 3].
Proof.
  assert (Hlen : length [1; 2; 3] ≤ 5) by (vm_compute; lia).
  destruct (construct_from_holds_arguments moved_from_int true 5 [1; 2; 3])
    as (Hfits & _).
  exact (conj Hlen (Hfits Hlen)).
Defined.

(** [insert(begin(), v[1])] and then [erase(begin())] on a
    [vector<int, 5>] [v] holding 1, 2: the insertion reads the reference
    after the shift, when slot 1 holds 1. *)
Lemma insert_then_erase_restores_witness :
  wf 5 vec_12 ∧ size vec_12 < 5 ∧ begin vec_12 ≤ 0 ≤ end_ vec_12
  ∧ valid_argument true 0 (element_at 1) vec_12
  ∧ (∃ v1, insert_from moved_from_int true 5 0 (element_at 1) vec_12
           = Returned 0 v1
       ∧ elements v1 = [Some 1; Some 1; Some 2])
  ∧ ∃ v1 v2,
      insert_from moved_from_int true 5 0 (element_at 1) vec_12 = Returned 0 v1
      ∧ erase moved_from_int true true 0 v1 = Returned 0 v2
      ∧ size v2 = 2
      ∧ elements v2 = [Some 1; Some 2].
Proof.
  assert (Hwf : wf 5 vec_12) by wf_by_computation.
  assert (Hroom : size vec_12 < 5) by (vm_compute; lia).
  assert (Hpos : begin vec_12 ≤ 0 ≤ end_ vec_12) by (vm_compute; lia).
  assert (Harg : valid_argument true 0 (element_at 1) vec_12)
    by (split; [vm_compute; lia|done]).
  refine (conj Hwf (conj Hroom (conj Hpos (conj Harg (conj _ _))))).
  - eexists. split; reflexivity.
  - exact (insert_then_erase_restores moved_from_int true true 5 0
             (element_at 1) vec_12 Hwf Hroom Hpos (or_intror eq_refl) Harg).
Defined.

(** [push_back(3)], [back()] and [pop_back()] on a [vector<int, 5>]
    holding 1, 2. *)
Lemma push_back_then_back_and_pop_back_witness :
  wf 5 vec_12 ∧ size vec_12 < max_size vec_12
  ∧ ∃ r v1,
      push_back moved_from_int true 5 3 vec_12 = Returned r v1
      ∧ back v1 = Some r
      ∧ deref v1 r = Some 3
      ∧ size (pop_back true v1) = 2
      ∧ elements (pop_back true v1) = [Some 1; Some 2].
Proof.
  assert (Hwf : wf 5 vec_12) by wf_by_computation.
  assert (Hroom : size vec_12 < max_size vec_12) by (vm_compute; lia).
  exact (conj Hwf (conj Hroom
           (push_back_then_back_and_pop_back moved_from_int true true 5 3 vec_12
              Hwf Hroom))).
Defined.


(** The state [main.cpp] is in after [push_back(5)] is reachable. *)
Lemma reachable_states_well_formed_witness :
  (true = true ∨ true = true)
  ∧ reachable moved_from_int true true true 10 vec_main
  ∧ wf 10 vec_main
  ∧ ∀ i, i < size vec_main → is_Some (deref vec_main (subscript i vec_main)).
Proof.
  assert (Htraits : true = true ∨ true = true) by (by left).
  assert (Hreach : reachable moved_from_int true true true 10 vec_main).
  { apply (reach_returned _ _ _ _ _ (op_push_back 5) (default_vector 10)).
    - apply reach_default.
    - exact I.
    - reflexivity. }
  exact (conj Htraits (conj Hreach
           (reachable_states_well_formed moved_from_int true true true 10 vec_main
              Htraits Hreach))).
Defined.

(** [at(2)] on a [vector<int, 5>] holding 1, 2 throws, and is the first of
    the two cases. *)
Lemma exceptions_are_at_or_full_insertion_witness :
  run moved_from_int true true true 5 (op_at 2) vec_12
  = Threw IndexOutOfRange vec_12
  ∧ ((∃ pos, @op_at nat 2 = op_at pos ∧ IndexOutOfRange = IndexOutOfRange
        ∧ vec_12 = vec_12 ∧ size vec_12 ≤ pos)
     ∨ (is_insertion (@op_at nat 2) = true
        ∧ IndexOutOfRange = CapacityExceeded ∧ 5 ≤ size vec_12)).
Proof.
  assert (Hrun : run moved_from_int true true true 5 (op_at 2) vec_12
                 = Threw IndexOutOfRange vec_12) by reflexivity.
  exact (conj Hrun
           (exceptions_are_at_or_full_insertion moved_from_int true true true 5
              (op_at 2) vec_12 IndexOutOfRange vec_12 Hrun)).
Defined.

(** The two loops on a vector holding 1, 2, 3, 4, 5. *)
Lemma iteration_visits_elements_witness :
  wf 5 vec_12345
  ∧ ∃ xs, range_for vec_12345 = Some xs
      ∧ Some <$> xs = elements vec_12345
      ∧ reverse_for vec_12345 = Some (reverse xs).
Proof.
  assert (Hwf : wf 5 vec_12345) by wf_by_computation.
  exact (conj Hwf (iteration_visits_elements 5 vec_12345 Hwf)).
Defined.

(** [at(1)], the subscript operator, [front()] and [back()] on a vector
    holding 1, 2. *)
Lemma element_access_agrees_witness :
  wf 5 vec_12 ∧ 1 < size vec_12
  ∧ at_ 1 vec_12 = Returned (subscript 1 vec_12) vec_12
  ∧ (∃ x, deref vec_12 (subscript 1 vec_12) = Some x
       ∧ elements vec_12 !! 1 = Some (Some x))
  ∧ (∃ x, deref vec_12 (front vec_12) = Some x
       ∧ head (elements vec_12) = Some (Some x))
  ∧ (∃ p x, back vec_12 = Some p ∧ deref vec_12 p = Some x
       ∧ last (elements vec_12) = Some (Some x)).
Proof.
  assert (Hwf : wf 5 vec_12) by wf_by_computation.
  assert (Hi : 1 < size vec_12) by (vm_compute; lia).
  exact (conj Hwf (conj Hi (element_access_agrees 5 1 vec_12 Hwf Hi))).
Defined.

(** [clear()] and then [push_back(7)], [push_back(8)] on a vector holding
    1, 2, 3, 4, 5. *)
Lemma refill_after_clear_witness :
  wf 5 vec_12345 ∧ length [7; 8] ≤ 5
  ∧ ∃ v', push_back_all moved_from_int true 5 [7; 8] (clear true vec_12345)
          = Returned tt v'
      ∧ wf 5 v'
      ∧ size v' = 2
      ∧ elements v' = [Some 7; Some 8].
Proof.
  assert (Hb : wf 5 vec_12345) by wf_by_computation.
  assert (Hlen : length [7; 8] ≤ 5) by (vm_compute; lia).
  exact (conj Hb (conj Hlen
           (refill_after_clear moved_from_int true true 5 [7; 8] vec_12345 Hb Hlen))).
Defined.

(** [insert(end(), {3, 4})] and two [push_back] calls on a [vector<int, 5>]
    holding 1, 2. *)
Lemma insert_at_end_is_push_back_all_witness :
  wf 5 vec_12
  ∧ discard (insert_list moved_from_int true 5 (end_ vec_12) [3; 4]) vec_12
    = push_back_all moved_from_int true 5 [3; 4] vec_12.
Proof.
  assert (Hwf : wf 5 vec_12) by wf_by_computation.
  exact (conj Hwf
           (insert_at_end_is_push_back_all moved_from_int true 5 [3; 4] vec_12 Hwf)).
Defined.

(** [emplace(begin() + 1, 9)] on a [vector<int, 5>] holding 1, 2. *)
Lemma emplace_shifts_and_constructs_witness :
  wf 5 vec_12 ∧ size vec_12 < 5 ∧ begin vec_12 ≤ 1 ≤ end_ vec_12
  ∧ ∃ v', emplace moved_from_int true 5 1 9 vec_12 = Returned 1 v'
      ∧ size v' = 3
      ∧ elements v' = [Some 1; Some 9; Some 2].
Proof.
  assert (Hwf : wf 5 vec_12) by wf_by_computation.
  assert (Hroom : size vec_12 < 5) by (vm_compute; lia).
  assert (Hpos : begin vec_12 ≤ 1 ≤ end_ vec_12) by (vm_compute; lia).
  refine (conj Hwf (conj Hroom (conj Hpos _))).
  destruct (emplace_shifts_and_constructs moved_from_int true 5 1 9 vec_12
              Hwf Hroom Hpos (or_intror eq_refl))
    as (v' & Hrun & Hsize & Hel & _).
  exists v'. split_and!; [exact Hrun|exact Hsize|exact Hel].
Defined.

(** [main.cpp]: [insert(begin() + 1, {2, 3, 5, 4, 4, 2, 5})] on a
    [vector<int, 10>] holding 5. *)
Lemma multi_insert_fits_then_fails_witness :
  wf 10 vec_main ∧ begin vec_main ≤ 1 ≤ end_ vec_main
  ∧ ∃ v', insert_list moved_from_int true 10 1 [2; 3; 5; 4; 4; 2; 5] vec_main
          = Returned 8 v'
      ∧ size v' = 8
      ∧ elements v'
        = [Some 5; Some 2; Some 3; Some 5; Some 4; Some 4; Some 2; Some 5].
Proof.
  assert (Hwf : wf 10 vec_main) by wf_by_computation.
  assert (Hpos : begin vec_main ≤ 1 ≤ end_ vec_main) by (vm_compute; lia).
  refine (conj Hwf (conj Hpos _)).
  destruct (multi_insert_fits_then_fails moved_from_int true 10 1 vec_main
              Hwf Hpos (or_intror eq_refl))
    as (_ & _ & Hlist).
  destruct (Hlist [2; 3; 5; 4; 4; 2; 5]) as [Hfit _].
  apply Hfit. vm_compute; lia.
Defined.

(** [insert(begin(), v[1])] on a [vector<int, 5>] [v] holding 1, 2 inserts
    1, the element at index 0, and [insert(begin(), 2, v[1])] inserts it
    twice, where two copies of the value 2 would give 2, 2, 1, 2. *)
Lemma insert_reads_reference_after_shift_witness :
  wf 5 vec_12 ∧ size vec_12 < 5 ∧ begin vec_12 ≤ 0 ≤ end_ vec_12
  ∧ 1 < size vec_12
  ∧ (∃ v', insert_from moved_from_int true 5 0 (element_at 1) vec_12
           = Returned 0 v'
       ∧ elements v' = [Some 1; Some 1; Some 2])
  ∧ (∃ v', insert_count moved_from_int true 5 0 2 (element_at 1) vec_12
           = Returned 2 v'
       ∧ elements v' = [Some 1; Some 1; Some 1; Some 2])
  ∧ (∃ v', insert_range moved_from_int true 5 0 [2; 2] vec_12 = Returned 2 v'
       ∧ elements v' = [Some 2; Some 2; Some 1; Some 2]).
Proof.
  assert (Hwf : wf 5 vec_12) by wf_by_computation.
  assert (Hroom : size vec_12 < 5) by (vm_compute; lia).
  assert (Hpos : begin vec_12 ≤ 0 ≤ end_ vec_12) by (vm_compute; lia).
  assert (Hp : 1 < size vec_12) by (vm_compute; lia).
  refine (conj Hwf (conj Hroom (conj Hpos (conj Hp (conj _ (conj _ _)))))).
  - destruct (insert_reads_reference_after_shift moved_from_int true 5 0 1
                vec_12 Hwf Hroom Hpos eq_refl Hp)
      as (x & v' & Hrun & _ & Hel & _ & Hafter).
    exists v'. split; [exact Hrun|].
    assert (Hx : Some (Some 1) = Some (Some x)) by (apply Hafter; lia).
    injection Hx as <-. exact Hel.
  - eexists. split; reflexivity.
  - eexists. split; reflexivity.
Defined.

(** [erase(end() - 1)] and [pop_back()] on a vector holding 1, 2. *)
Lemma erase_last_is_pop_back_witness :
  wf 5 vec_12 ∧ 0 < size vec_12
  ∧ ∃ v', erase moved_from_int true true (end_ vec_12 - 1) vec_12
          = Returned (end_ vec_12 - 1) v'
      ∧ size v' = size (pop_back true vec_12)
      ∧ elements v' = elements (pop_back true vec_12).
Proof.
  assert (Hwf : wf 5 vec_12) by wf_by_computation.
  assert (Hpos : 0 < size vec_12) by (vm_compute; lia).
  exact (conj Hwf (conj Hpos
           (erase_last_is_pop_back moved_from_int true true 5 vec_12 Hwf Hpos))).
Defined.

End cesa.
